(** * go-kafkaproxy: the producer wrapper and its error taxonomy

    A shallow embedding of [pkg/proxyerror/error.go] and
    [pkg/producer/producer.go].  The pure parts (error constructors, message
    factory, the guards of [Input] and [New]) are plain functions.  The
    goroutines started by [New] and [Close] are embedded as a small-step
    machine: every goroutine is a program counter over the statements of its
    body, a scheduler action picks who moves, and each move performs at most
    one access to shared memory (the two flags of the handle, a channel, the
    Adapter).  Goroutines interleave at these accesses.

    What lies outside the two files is kept abstract: the Adapter answers
    the k-th call of its [Close()] by an arbitrary function of k, the
    environment delivers signals and delivery errors at any time, the body
    of the user's error handler is not run (its calls are recorded), and
    clients of the handle call [Close()] and [EnableLogging()] and may
    receive from the result channels. *)

From stdpp Require Import base option list strings.
From Stdlib Require Import ZArith Lia.

Local Open Scope string_scope.
Local Open Scope Z_scope.
Local Open Scope list_scope.

(** ** pkg/proxyerror *)
Module proxyerror.

(** [time.Time], kept abstract: an instant read from the clock. *)
Definition instant := Z.

Record ProxyError := mkProxyError {
  Code : Z;
  Time : instant;
  Message : string
}.

(** [createError]: [now] is what [time.Now()] returned. *)
Definition createError (now : instant) (code : Z) (messages : list string)
  : ProxyError :=
  {| Code := code; Time := now; Message := String.concat ": " messages |}.

Definition BrokersNotSetError (now : instant) (messages : list string) :=
  createError now 1 messages.

Definition ConnectionError (now : instant) (messages : list string) :=
  createError now 2 messages.

Definition ResourceCloseError (now : instant) (messages : list string) :=
  createError now 3 messages.

Definition ResourceClosedError (now : instant) (messages : list string) :=
  createError now 4 messages.

Definition ResourceWriteError (now : instant) (messages : list string) :=
  createError now 5 messages.

End proxyerror.

(** ** The parts of the sarama client library the wrapper touches *)
Module sarama.

Inductive RequiredAcks := NoResponse | WaitForLocal | WaitForAll.

Inductive CompressionCodec :=
| CompressionNone | CompressionGZIP | CompressionSnappy
| CompressionLZ4 | CompressionZSTD.

(** [sarama.Config]: the three producer settings the wrapper writes, and
    the remaining settings as an uninterpreted bundle. *)
Record Config := mkConfig {
  Producer_Return_Errors : bool;
  Producer_RequiredAcks : RequiredAcks;
  Producer_Compression : CompressionCodec;
  OtherSettings : list (string * string)
}.

(** [sarama.Encoder] values; a nil interface is [None] at the use site. *)
Inductive Encoder :=
| StringEncoder (s : string)
| ByteEncoder (b : list Z).

Record ProducerMessage := mkProducerMessage {
  Topic : string;
  Key : option Encoder;
  Value : option Encoder;
  Offset : Z;
  Partition : Z
}.

(** A Go [error] interface value: [None] is nil, [Some s] an error whose
    [Error()] method returns [s]. *)
Definition error := option string.

Record ProducerError := mkProducerError {
  Msg : ProducerMessage;
  Err : error
}.

End sarama.

(** ** pkg/producer *)
Module producer.
Import proxyerror.

Definition error := sarama.error.

(** The [Adapter] interface, as far as the wrapper uses it: the handle
    returned by [Input()], and the result of the k-th call of [Close()].
    The channel behind [Errors()] lives in the machine state below. *)
Record Adapter := mkAdapter {
  adapterInput : nat;
  adapterClose : nat -> error
}.

(** A user-supplied error handler (a Go func taking a pointer to a
    [sarama.ProducerError]), identified by a tag; each call is recorded,
    its body is user code. *)
Definition Handler := nat.

Record Config := mkConfig {
  ErrHandler : option Handler;
  KafkaBrokers : option (list string);
  SaramaConfig : option sarama.Config
}.

Record Producer := mkProducer {
  producer : Adapter;
  isClosed : bool;
  isLoggingEnabled : bool
}.

Definition EnableLogging (p : Producer) : Producer :=
  {| producer := producer p; isClosed := isClosed p;
     isLoggingEnabled := true |}.

(** The zero value of [sarama.ProducerMessage] with [Topic] and [Value]
    set, then [Key] when the key is not the empty string. *)
Definition CreateKeyMessage (topic key value : string)
  : sarama.ProducerMessage :=
  let msg := {| sarama.Topic := topic;
                sarama.Key := None;
                sarama.Value := Some (sarama.StringEncoder value);
                sarama.Offset := 0;
                sarama.Partition := 0 |} in
  if negb (String.eqb key "")
  then {| sarama.Topic := sarama.Topic msg;
          sarama.Key := Some (sarama.StringEncoder key);
          sarama.Value := sarama.Value msg;
          sarama.Offset := sarama.Offset msg;
          sarama.Partition := sarama.Partition msg |}
  else msg.

Definition CreateMessage (topic value : string) : sarama.ProducerMessage :=
  CreateKeyMessage topic "" value.

Definition IsClosed (p : Producer) : bool := isClosed p.

Definition Get (p : Producer) : Adapter := producer p.

(** [Input]: the pair (channel, error) of the Go function. *)
Definition Input (now : instant) (p : Producer)
  : option nat * option ProxyError :=
  if negb (IsClosed p)
  then (Some (adapterInput (producer p)), None)
  else (None, Some (ResourceClosedError now ["Producer already closed."])).

(** *** Channels of errors (Go's [chan error]) *)

Record Chan := mkChan {
  buf : list error;
  cap : nat;
  closed : bool
}.

(** [make(chan error, n)] *)
Definition make_chan (n : nat) : Chan :=
  {| buf := []; cap := n; closed := false |}.

(** A receive: the oldest buffered value; the zero value (nil) from a closed
    and drained channel; [None] when the receiver has to wait. *)
Definition chan_recv (c : Chan) : option (error * Chan) :=
  match buf c with
  | v :: rest => Some (v, {| buf := rest; cap := cap c; closed := closed c |})
  | [] => if closed c then Some (None, c) else None
  end.

Inductive SendResult :=
| SendOk (c : Chan)
| SendBlocked
| SendPanic.

(** A send on a buffered channel: it panics on a closed channel, enqueues
    while the buffer has room, and waits otherwise. *)
Definition chan_send (v : error) (c : Chan) : SendResult :=
  if closed c then SendPanic
  else if (length (buf c) <? cap c)%nat
       then SendOk {| buf := buf c ++ [v]; cap := cap c; closed := closed c |}
       else SendBlocked.

(** *** Goroutines *)

Inductive Signal := SIGHUP | SIGINT | SIGQUIT | SIGKILL | SIGTERM.

(** The signals passed to [signal.Notify] in [handleKeyInterrupt]. *)
Definition notified (s : Signal) : bool :=
  match s with
  | SIGINT | SIGTERM | SIGQUIT => true
  | _ => false
  end.

(** The goroutine of [handleKeyInterrupt], statement by statement. *)
Inductive WatcherPc :=
| W_WaitSignal                      (* <-sigChan *)
| W_Log                             (* log.Println(...) *)
| W_Close                           (* p.Close() *)
| W_Recv (ch : option nat)          (* closeError := <-ch *)
| W_Fatal (closeError : error).     (* log.Fatalln(closeError.Error()) *)

(** The goroutine of [handleErrors]. *)
Inductive RouterPc :=
| R_Range                                   (* for err := range Errors() *)
| R_Body (err : sarama.ProducerError)       (* if p.isLoggingEnabled ... *)
| R_Handler (err : sarama.ProducerError)    (* errHandler(err) *)
| R_Done.

(** The goroutine started by [Close]. *)
Inductive CloserPc :=
| C_Close                 (* err := producer.Close() *)
| C_CheckErr (err : error)  (* if err != nil { if p.isLoggingEnabled ... *)
| C_Send (err : error)    (* closeErrorChan <- err *)
| C_Log                   (* if p.isLoggingEnabled { log.Println(...) } *)
| C_SetClosed             (* p.isClosed = true *)
| C_Done.

(** One call of [Close] that found the producer open: the channel it made
    and returned, and the goroutine it started, which is the only sender on
    that channel. *)
Record CloseCall := mkCloseCall {
  closeErrorChan : Chan;
  closer : CloserPc
}.

Inductive Task := Watcher | Router | Closer (c : nat).

Inductive LogEntry :=
| Println (s : string)
| FatalClose (err : error)                   (* log.Fatal("Error closing async producer.", err) *)
| FatalProduce (err : sarama.ProducerError)  (* log.Fatalln("Failed to produce message", err) *)
| FatalString (s : string).                  (* log.Fatalln(s) *)

(** [log.Fatal] ends the process with [os.Exit(1)]; a nil dereference or a
    call of a nil func panics. *)
Inductive Status :=
| Running
| Exited (by_task : Task)
| Panicked (by_task : Task).

Record State := mkState {
  handle : Producer;
  closeCalls : nat;                        (* calls of the Adapter's Close() so far *)
  errorsChan : list sarama.ProducerError;  (* buffered in the Adapter's Errors() *)
  errorsClosed : bool;
  sigChan : list Signal;                   (* make(chan os.Signal, 1) *)
  errHandler : option Handler;
  watcher : WatcherPc;
  router : RouterPc;
  closes : list CloseCall;
  logged : list LogEntry;
  handled : list (Handler * sarama.ProducerError);
  status : Status
}.

Definition set_handle (h : Producer) (st : State) : State :=
  mkState h (closeCalls st) (errorsChan st) (errorsClosed st) (sigChan st)
    (errHandler st) (watcher st) (router st) (closes st) (logged st)
    (handled st) (status st).

Definition set_closeCalls (n : nat) (st : State) : State :=
  mkState (handle st) n (errorsChan st) (errorsClosed st) (sigChan st)
    (errHandler st) (watcher st) (router st) (closes st) (logged st)
    (handled st) (status st).

Definition set_errorsChan (l : list sarama.ProducerError) (st : State) : State :=
  mkState (handle st) (closeCalls st) l (errorsClosed st) (sigChan st)
    (errHandler st) (watcher st) (router st) (closes st) (logged st)
    (handled st) (status st).

Definition set_errorsClosed (b : bool) (st : State) : State :=
  mkState (handle st) (closeCalls st) (errorsChan st) b (sigChan st)
    (errHandler st) (watcher st) (router st) (closes st) (logged st)
    (handled st) (status st).

Definition set_sigChan (l : list Signal) (st : State) : State :=
  mkState (handle st) (closeCalls st) (errorsChan st) (errorsClosed st) l
    (errHandler st) (watcher st) (router st) (closes st) (logged st)
    (handled st) (status st).

Definition set_watcher (w : WatcherPc) (st : State) : State :=
  mkState (handle st) (closeCalls st) (errorsChan st) (errorsClosed st)
    (sigChan st) (errHandler st) w (router st) (closes st) (logged st)
    (handled st) (status st).

Definition set_router (r : RouterPc) (st : State) : State :=
  mkState (handle st) (closeCalls st) (errorsChan st) (errorsClosed st)
    (sigChan st) (errHandler st) (watcher st) r (closes st) (logged st)
    (handled st) (status st).

Definition set_closes (l : list CloseCall) (st : State) : State :=
  mkState (handle st) (closeCalls st) (errorsChan st) (errorsClosed st)
    (sigChan st) (errHandler st) (watcher st) (router st) l (logged st)
    (handled st) (status st).

Definition add_log (e : LogEntry) (st : State) : State :=
  mkState (handle st) (closeCalls st) (errorsChan st) (errorsClosed st)
    (sigChan st) (errHandler st) (watcher st) (router st) (closes st)
    (logged st ++ [e]) (handled st) (status st).

Definition add_handled (h : Handler) (e : sarama.ProducerError) (st : State)
  : State :=
  mkState (handle st) (closeCalls st) (errorsChan st) (errorsClosed st)
    (sigChan st) (errHandler st) (watcher st) (router st) (closes st)
    (logged st) (handled st ++ [(h, e)]) (status st).

Definition set_status (s : Status) (st : State) : State :=
  mkState (handle st) (closeCalls st) (errorsChan st) (errorsClosed st)
    (sigChan st) (errHandler st) (watcher st) (router st) (closes st)
    (logged st) (handled st) s.

(** [log.Fatal], [log.Fatalln]: print, then [os.Exit(1)]. *)
Definition log_fatal (t : Task) (e : LogEntry) (st : State) : State :=
  set_status (Exited t) (add_log e st).

Definition set_closer (c : nat) (cc : CloseCall) (pc : CloserPc) (st : State)
  : State :=
  set_closes (<[c := mkCloseCall (closeErrorChan cc) pc]> (closes st)) st.

Definition set_chan (c : nat) (cc : CloseCall) (ch : Chan) (st : State)
  : State :=
  set_closes (<[c := mkCloseCall ch (closer cc)]> (closes st)) st.

(** [Close]: the flag is read once; when it is false the channel is made
    and the goroutine is started before the call returns.  The result is the
    returned channel, [None] for Go's nil. *)
Definition Close (st : State) : State * option nat :=
  if IsClosed (handle st)
  then (st, None)
  else (set_closes (closes st ++ [mkCloseCall (make_chan 1) C_Close]) st,
        Some (length (closes st))).

Definition step_watcher (st : State) : option State :=
  match watcher st with
  | W_WaitSignal =>
      match sigChan st with
      | _ :: rest => Some (set_watcher W_Log (set_sigChan rest st))
      | [] => None
      end
  | W_Log =>
      Some (set_watcher W_Close
              (add_log (Println "Keyboard-Interrupt signal received.") st))
  | W_Close =>
      let '(st', ch) := Close st in
      Some (set_watcher (W_Recv ch) st')
  | W_Recv None => None
  | W_Recv (Some c) =>
      match closes st !! c with
      | Some cc =>
          match chan_recv (closeErrorChan cc) with
          | Some (v, ch') => Some (set_watcher (W_Fatal v) (set_chan c cc ch' st))
          | None => None
          end
      | None => None
      end
  | W_Fatal None => Some (set_status (Panicked Watcher) st)
  | W_Fatal (Some msg) => Some (log_fatal Watcher (FatalString msg) st)
  end.

Definition step_router (st : State) : option State :=
  match router st with
  | R_Range =>
      match errorsChan st with
      | err :: rest => Some (set_router (R_Body err) (set_errorsChan rest st))
      | [] => if errorsClosed st then Some (set_router R_Done st) else None
      end
  | R_Body err =>
      if isLoggingEnabled (handle st)
      then Some (log_fatal Router (FatalProduce err) st)
      else Some (set_router (R_Handler err) st)
  | R_Handler err =>
      match errHandler st with
      | Some h => Some (set_router R_Range (add_handled h err st))
      | None => Some (set_status (Panicked Router) st)
      end
  | R_Done => None
  end.

Definition step_closer (c : nat) (st : State) : option State :=
  match closes st !! c with
  | None => None
  | Some cc =>
      match closer cc with
      | C_Close =>
          let err := adapterClose (Get (handle st)) (closeCalls st) in
          Some (set_closer c cc (C_CheckErr err)
                  (set_closeCalls (S (closeCalls st)) st))
      | C_CheckErr None => Some (set_closer c cc C_Log st)
      | C_CheckErr (Some e) =>
          if isLoggingEnabled (handle st)
          then Some (log_fatal (Closer c) (FatalClose (Some e)) st)
          else Some (set_closer c cc (C_Send (Some e)) st)
      | C_Send err =>
          match chan_send err (closeErrorChan cc) with
          | SendOk ch' => Some (set_closes (<[c := mkCloseCall ch' C_Log]> (closes st)) st)
          | SendBlocked => None
          | SendPanic => Some (set_status (Panicked (Closer c)) st)
          end
      | C_Log =>
          Some (set_closer c cc C_SetClosed
                  (if isLoggingEnabled (handle st)
                   then add_log (Println "Async Producer closed.") st
                   else st))
      | C_SetClosed =>
          Some (set_closer c cc C_Done
                  (set_handle (mkProducer (producer (handle st)) true
                                 (isLoggingEnabled (handle st))) st))
      | C_Done => None
      end
  end.

(** What can happen next: a client calls the API, the environment delivers
    a signal or a delivery error, or a goroutine of the wrapper moves. *)
Inductive Action :=
| CallClose
| CallEnableLogging
| ClientRecv (c : nat)
| Deliver (s : Signal)
| AdapterError (e : sarama.ProducerError)
| AdapterErrorsClosed
| Run (t : Task).

(** One move; [None] when the action cannot happen now (a goroutine that
    waits, a process that is gone). *)
Definition step (a : Action) (st : State) : option State :=
  match status st with
  | Running =>
      match a with
      | CallClose => Some (fst (Close st))
      | CallEnableLogging => Some (set_handle (EnableLogging (handle st)) st)
      | ClientRecv c =>
          match closes st !! c with
          | Some cc =>
              match chan_recv (closeErrorChan cc) with
              | Some (_, ch') => Some (set_chan c cc ch' st)
              | None => None
              end
          | None => None
          end
      | Deliver s =>
          if notified s
          then Some (if (length (sigChan st) <? 1)%nat
                     then set_sigChan (sigChan st ++ [s]) st
                     else st)
          else None
      | AdapterError e =>
          if errorsClosed st then None
          else Some (set_errorsChan (errorsChan st ++ [e]) st)
      | AdapterErrorsClosed => Some (set_errorsClosed true st)
      | Run Watcher => step_watcher st
      | Run Router => step_router st
      | Run (Closer c) => step_closer c st
      end
  | _ => None
  end.

(** A schedule is run as far as it goes: an action that cannot happen is
    skipped. *)
Fixpoint run (sched : list Action) (st : State) : State :=
  match sched with
  | [] => st
  | a :: rest => run rest (default st (step a st))
  end.

Inductive reachable (st0 : State) : State -> Prop :=
| reach_refl : reachable st0 st0
| reach_step st a st' :
    reachable st0 st -> step a st = Some st' -> reachable st0 st'.

(** *** Construction *)

(** The state [New] leaves behind on success: the handle with both flags
    false, the goroutines of [handleKeyInterrupt] and [handleErrors] at
    their first statement. *)
Definition started (a : Adapter) (h : option Handler) : State :=
  {| handle := mkProducer a false false;
     closeCalls := 0;
     errorsChan := [];
     errorsClosed := false;
     sigChan := [];
     errHandler := h;
     watcher := W_WaitSignal;
     router := R_Range;
     closes := [];
     logged := [];
     handled := [];
     status := Running |}.

Section Construction.

(** The two library entry points [New] calls: [sarama.NewConfig()], and
    [sarama.NewAsyncProducer], whose failure carries [err.Error()]. *)
Variable NewConfig : sarama.Config.
Variable NewAsyncProducer :
  list string -> sarama.Config -> Adapter + string.

(** The value of the local [config] of [New] before the producer is made. *)
Definition chosenConfig (initConfig : Config) : sarama.Config :=
  match SaramaConfig initConfig with
  | Some override => override
  | None =>
      let config := NewConfig in
      let config := sarama.mkConfig true
                      (sarama.Producer_RequiredAcks config)
                      (sarama.Producer_Compression config)
                      (sarama.OtherSettings config) in
      let config := sarama.mkConfig (sarama.Producer_Return_Errors config)
                      sarama.WaitForAll
                      (sarama.Producer_Compression config)
                      (sarama.OtherSettings config) in
      sarama.mkConfig (sarama.Producer_Return_Errors config)
        (sarama.Producer_RequiredAcks config)
        sarama.CompressionNone
        (sarama.OtherSettings config)
  end.

(** [s == nil || len(s) == 0] on a slice *)
Definition nil_or_empty (s : option (list string)) : bool :=
  match s with
  | None => true
  | Some l => (length l =? 0)%nat
  end.

(** [New]: the pair (handle, error) of the Go function; the handle comes
    with its two goroutines started. *)
Definition New (now : instant) (initConfig : Config)
  : option State * option ProxyError :=
  if nil_or_empty (KafkaBrokers initConfig)
  then (None, Some (BrokersNotSetError now ["No Kafka Brokers set."]))
  else
    let config := chosenConfig initConfig in
    match NewAsyncProducer (default [] (KafkaBrokers initConfig)) config with
    | inr err => (None, Some (ConnectionError now [err]))
    | inl producer => (Some (started producer (ErrHandler initConfig)), None)
    end.

End Construction.

End producer.

Import proxyerror producer.

(** ** Concrete adapters, configurations and schedules *)

Definition failing_adapter : Adapter := mkAdapter 7 (fun _ => Some "boom").

Definition clean_adapter : Adapter := mkAdapter 7 (fun _ => None).

Definition library_defaults : sarama.Config :=
  sarama.mkConfig false sarama.WaitForLocal sarama.CompressionSnappy
    [("ClientID", "sarama")].

Definition connect_ok (brokers : list string) (c : sarama.Config)
  : Adapter + string := inl clean_adapter.

Definition sample_error : sarama.ProducerError :=
  sarama.mkProducerError (CreateMessage "t" "v") (Some "timed out").

(** A handle whose closed-flag is already set. *)
Definition closed_state : State :=
  set_handle (mkProducer clean_adapter true false) (started clean_adapter None).

(** Two calls of [Close()] before either goroutine has written the flag,
    then both goroutines run to their end. *)
Definition two_closes : list Action :=
  [CallClose; CallClose;
   Run (Closer 0); Run (Closer 1);
   Run (Closer 0); Run (Closer 1);
   Run (Closer 0); Run (Closer 1);
   Run (Closer 0); Run (Closer 1);
   Run (Closer 0); Run (Closer 1)].

(** One call of [Close()] with logging enabled, the goroutine runs. *)
Definition logged_close : list Action :=
  [CallEnableLogging; CallClose;
   Run (Closer 0); Run (Closer 0); Run (Closer 0);
   Run (Closer 0); Run (Closer 0)].

(** A signal, then the watcher and the closer it starts. *)
Definition interrupt : list Action :=
  [Deliver SIGINT; Run Watcher; Run Watcher; Run Watcher;
   Run (Closer 0); Run (Closer 0); Run (Closer 0);
   Run (Closer 0); Run (Closer 0);
   Run Watcher; Run Watcher].

(** ** Invariants of the machine *)

(** [v] is a non-nil error that one of the first [n] calls of the Adapter's
    [Close()] returned. *)
Definition from_adapter (a : Adapter) (n : nat) (v : error) : Prop :=
  exists msg k, v = Some msg /\ (k < n)%nat /\ adapterClose a k = Some msg.

(** A result channel and its goroutine: capacity 1, never closed, empty
    until the goroutine is past its send, and then holding at most the one
    error the Adapter returned. *)
Definition call_ok (a : Adapter) (n : nat) (cc : CloseCall) : Prop :=
  cap (closeErrorChan cc) = 1%nat /\
  closed (closeErrorChan cc) = false /\
  match closer cc with
  | C_Close => buf (closeErrorChan cc) = []
  | C_CheckErr err =>
      buf (closeErrorChan cc) = [] /\
      exists k, (k < n)%nat /\ adapterClose a k = err
  | C_Send err => buf (closeErrorChan cc) = [] /\ from_adapter a n err
  | C_Log | C_SetClosed | C_Done =>
      buf (closeErrorChan cc) = [] \/
      exists v, buf (closeErrorChan cc) = [v] /\ from_adapter a n v
  end.

Definition watcher_ok (a : Adapter) (st : State) : Prop :=
  match watcher st with
  | W_Fatal v => from_adapter a (closeCalls st) v
  | _ => True
  end.

Definition status_ok (a : Adapter) (st : State) : Prop :=
  match status st with
  | Running => True
  | Exited Watcher =>
      exists msg, from_adapter a (closeCalls st) (Some msg) /\
                  last (logged st) = Some (FatalString msg)
  | Exited _ => True
  | Panicked Router => True
  | Panicked _ => False
  end.

Definition past_close (cc : CloseCall) : bool :=
  match closer cc with
  | C_Close => false
  | _ => true
  end.

Definition is_done (cc : CloseCall) : bool :=
  match closer cc with
  | C_Done => true
  | _ => false
  end.

Record Inv (a : Adapter) (st : State) : Prop := mkInv {
  inv_adapter : producer (handle st) = a;
  inv_calls : Forall (call_ok a (closeCalls st)) (closes st);
  inv_watcher : watcher_ok a st;
  inv_status : status_ok a st;
  (* the Adapter was closed once by each goroutine past its first statement *)
  inv_count : closeCalls st = length (List.filter past_close (closes st));
  (* the flag is set exactly when some close sequence has finished *)
  inv_flag : isClosed (handle st) = true <->
             Exists (fun cc => is_done cc = true) (closes st)
}.

(** The statements of a close sequence, in program order. *)
Definition rank (pc : CloserPc) : nat :=
  match pc with
  | C_Close => 0
  | C_CheckErr _ => 1
  | C_Send _ => 2
  | C_Log => 3
  | C_SetClosed => 4
  | C_Done => 5
  end.

(** ** Runs, and what is observed along them *)

(** A schedule run strictly: the run fails when an action cannot happen. *)
Fixpoint exec (sched : list Action) (st : State) : option State :=
  match sched with
  | [] => Some st
  | a :: rest =>
      match step a st with
      | Some st' => exec rest st'
      | None => None
      end
  end.

(** The delivery errors the Adapter emitted during a schedule, in order. *)
Definition delivered (sched : list Action) : list sarama.ProducerError :=
  flat_map (fun a => match a with AdapterError e => [e] | _ => [] end) sched.

(** The delivery error the router holds between its receive and the call
    of the handler. *)
Definition in_flight (st : State) : list sarama.ProducerError :=
  match router st with
  | R_Body err | R_Handler err => [err]
  | _ => []
  end.

(** Handled, held and still buffered delivery errors, oldest first. *)
Definition dispatch_order (st : State) : list sarama.ProducerError :=
  map snd (handled st) ++ in_flight st ++ errorsChan st.

Definition is_CallClose (a : Action) : bool :=
  match a with
  | CallClose => true
  | _ => false
  end.

Definition is_Deliver (a : Action) : bool :=
  match a with
  | Deliver _ => true
  | _ => false
  end.

(** 1 while the watcher has not yet made its call of [Close()]. *)
Definition watcher_close_ahead (st : State) : nat :=
  match watcher st with
  | W_WaitSignal | W_Log | W_Close => 1
  | _ => 0
  end.

(** The watcher has a signal, or has had one. *)
Definition signal_seen (st : State) : bool :=
  match watcher st, sigChan st with
  | W_WaitSignal, [] => false
  | _, _ => true
  end.

Definition is_receipt (e : LogEntry) : bool :=
  match e with
  | Println s => String.eqb s "Keyboard-Interrupt signal received."
  | _ => false
  end.

(** How often the receipt of a signal has been logged. *)
Definition receipts (st : State) : nat :=
  length (List.filter is_receipt (logged st)).

(** Why the process is gone, when it is. *)
Definition exit_ok (a : Adapter) (st : State) : Prop :=
  match status st with
  | Exited Router =>
      isLoggingEnabled (handle st) = true /\
      exists err, router st = R_Body err /\
                  last (logged st) = Some (FatalProduce err)
  | Exited (Closer c) =>
      isLoggingEnabled (handle st) = true /\
      exists msg k, (k < closeCalls st)%nat /\
                    adapterClose a k = Some msg /\
                    last (logged st) = Some (FatalClose (Some msg))
  | Panicked Router =>
      errHandler st = None /\ exists err, router st = R_Handler err
  | _ => True
  end.

Definition second_error : sarama.ProducerError :=
  sarama.mkProducerError (CreateKeyMessage "t" "k" "w") (Some "refused").

(** Two delivery errors, the second arriving while the router holds the
    first; the router then handles both. *)
Definition two_errors : list Action :=
  [AdapterError sample_error; Run Router; AdapterError second_error;
   Run Router; Run Router; Run Router; Run Router; Run Router].

(** Two calls of [Close()] and a signal, everything run to its end. *)
Definition closes_and_signal : list Action :=
  [CallClose; Deliver SIGTERM; Run Watcher; Run Watcher; Run Watcher;
   CallClose; Run (Closer 0); Run (Closer 0); Run (Closer 0); Run (Closer 0)].

(** The five exported constructors of [pkg/proxyerror], in source order. *)
Definition constructors : list (instant -> list string -> ProxyError) :=
  [BrokersNotSetError; ConnectionError; ResourceCloseError;
   ResourceClosedError; ResourceWriteError].

(** ** The invariants hold in every reachable state *)

Lemma insert_split {A} (l : list A) (c : nat) (x : A) :
  l !! c = Some x ->
  exists l1 l2 : list A, l = l1 ++ x :: l2 /\ forall y, <[c:=y]> l = l1 ++ y :: l2.
Proof.
  intros H. exists (take c l), (drop (S c) l). split.
  - symmetry. by apply take_drop_middle.
  - intros y. apply insert_take_drop. by eapply lookup_lt_Some.
Qed.

Lemma from_adapter_mono a n m v :
  (n <= m)%nat -> from_adapter a n v -> from_adapter a m v.
Proof. intros Hle (msg & k & -> & Hk & E). exists msg, k. split_and!; [done | lia | done]. Qed.

Lemma call_ok_mono a n m cc :
  (n <= m)%nat -> call_ok a n cc -> call_ok a m cc.
Proof.
  intros Hle (Hcap & Hcl & H). split_and!; [done | done |].
  destruct (closer cc); try done.
  - destruct H as [Hb (k & Hk & E)]. split; [done|]. exists k. split; [lia | done].
  - destruct H as [Hb Hf]. eauto using from_adapter_mono.
  - destruct H as [Hb | (v & Hb & Hf)]; [by left | right; eauto using from_adapter_mono].
  - destruct H as [Hb | (v & Hb & Hf)]; [by left | right; eauto using from_adapter_mono].
  - destruct H as [Hb | (v & Hb & Hf)]; [by left | right; eauto using from_adapter_mono].
Qed.

Lemma Close_inv a st :
  Inv a st -> Inv a (fst (Close st)).
Proof.
  intros [Ha Hc Hw Hs Hn Hf]. unfold Close.
  destruct (IsClosed (handle st)) eqn:E; [by constructor|].
  destruct st; simpl in *. constructor; simpl; try done.
  - apply Forall_app. split; [done|]. repeat constructor.
  - rewrite List.filter_app, length_app. simpl. lia.
  - rewrite Hf, Exists_app, Exists_cons, Exists_nil. simpl.
    split; [by left | by intros [?|[?|[]]]].
Qed.

Ltac split_closes H :=
  let l1 := fresh "l1" in
  let l2 := fresh "l2" in
  let Hins := fresh "Hins" in
  destruct (insert_split _ _ _ H) as (l1 & l2 & -> & Hins);
  rewrite ?Hins.

Lemma count_middle (l1 l2 : list CloseCall) cc :
  length (List.filter past_close (l1 ++ cc :: l2)) =
  (length (List.filter past_close l1) + (if past_close cc then 1 else 0) +
   length (List.filter past_close l2))%nat.
Proof.
  rewrite List.filter_app, length_app. simpl.
  destruct (past_close cc); simpl; lia.
Qed.

Lemma done_middle (l1 l2 : list CloseCall) cc :
  Exists (fun cc => is_done cc = true) (l1 ++ cc :: l2) <->
  is_done cc = true \/ Exists (fun cc => is_done cc = true) (l1 ++ l2).
Proof. rewrite !Exists_app, Exists_cons. tauto. Qed.

Lemma calls_middle a n (l1 l2 : list CloseCall) cc :
  Forall (call_ok a n) (l1 ++ cc :: l2) <->
  call_ok a n cc /\ Forall (call_ok a n) (l1 ++ l2).
Proof. rewrite !Forall_app, Forall_cons. tauto. Qed.

Lemma calls_mono a n m (l : list CloseCall) :
  (n <= m)%nat -> Forall (call_ok a n) l -> Forall (call_ok a m) l.
Proof.
  intros Hle H. eapply Forall_impl; [exact H|].
  intros cc. by apply call_ok_mono.
Qed.

Ltac setters :=
  unfold log_fatal, set_closer, set_chan, set_closes, set_handle,
    set_closeCalls, set_errorsChan, set_errorsClosed, set_sigChan,
    set_watcher, set_router, add_log, add_handled, set_status,
    EnableLogging in *;
  simpl in *.

Lemma watcher_mono a n m w :
  (n <= m)%nat ->
  match w with W_Fatal v => from_adapter a n v | _ => True end ->
  match w with W_Fatal v => from_adapter a m v | _ => True end.
Proof. destruct w; eauto using from_adapter_mono. Qed.

Ltac inv_goals :=
  constructor; unfold watcher_ok, status_ok; simpl;
  rewrite ?count_middle, ?done_middle; simpl;
  try done; try lia; try tauto.

Lemma step_closer_inv a c st st' :
  status st = Running -> Inv a st -> step_closer c st = Some st' -> Inv a st'.
Proof.
  intros Hrun [Ha Hc Hw Hs Hn Hf]. unfold step_closer.
  destruct (closes st !! c) as [cc|] eqn:Hcc; [|done].
  destruct cc as [ch pc]. unfold watcher_ok, status_ok in *.
  destruct st as [h n ec ecl sg eh w r cl lg hd s]; simpl in *.
  split_closes Hcc.
  apply calls_middle in Hc as [(Hcap & Hcl & Hpc) Hc]. simpl in *.
  rewrite count_middle in Hn. rewrite done_middle in Hf. simpl in *.
  subst s.
  destruct pc as [|[e|]|err| | |]; simpl.
  - (* err := producer.Close() *)
    intros [= <-]. setters. rewrite Hins. inv_goals.
    + apply calls_middle. split.
      * split_and!; try done. simpl. split; [done|].
        exists n. split; [lia|]. by rewrite <- Ha.
      * eapply calls_mono; [|done]. lia.
    + eapply watcher_mono; [|done]. lia.
  - (* a failed close *)
    destruct Hpc as [Hb (k & Hk & E)].
    destruct (isLoggingEnabled h); intros [= <-]; setters; rewrite ?Hins;
      inv_goals.
    + apply calls_middle. split; [|done]. split_and!; try done.
      simpl. eauto.
    + apply calls_middle. split; [|done]. split_and!; try done.
      simpl. split; [done|]. by exists e, k.
  - (* a clean close *)
    intros [= <-]. setters. rewrite Hins. inv_goals.
    apply calls_middle. split; [|done]. split_and!; try done.
    simpl. left. apply Hpc.
  - (* closeErrorChan <- err *)
    destruct Hpc as [Hb Hfrom]. unfold chan_send. rewrite Hcl, Hb, Hcap. simpl.
    intros [= <-]. setters. rewrite Hins. inv_goals.
    apply calls_middle. split; [|done]. split_and!; try done.
    simpl. right. by exists err.
  - (* the closing log line *)
    intros [= <-].
    destruct (isLoggingEnabled h); setters; rewrite Hins; inv_goals;
      (apply calls_middle; split; [|done]; split_and!; done).
  - (* p.isClosed = true *)
    intros [= <-]. setters. rewrite Hins. inv_goals.
    apply calls_middle. split; [|done]. split_and!; done.
  - done.
Qed.

(** A receive on a result channel yields an error of the Adapter and leaves
    the channel empty. *)
Lemma recv_ok a n ch pc v ch' :
  call_ok a n (mkCloseCall ch pc) ->
  chan_recv ch = Some (v, ch') ->
  from_adapter a n v /\ call_ok a n (mkCloseCall ch' pc).
Proof.
  intros (Hcap & Hcl & Hpc). unfold chan_recv. simpl in *.
  destruct (buf ch) as [|x rest] eqn:Hb.
  - by rewrite Hcl.
  - intros [= <- <-].
    destruct pc; simpl in *; try done; try (by destruct Hpc);
      (destruct Hpc as [? | (w & Hw & Hv)]; [done|];
       injection Hw as -> ->;
       split; [done|]; split_and!; simpl; auto).
Qed.

Lemma step_watcher_inv a st st' :
  status st = Running -> Inv a st -> step_watcher st = Some st' -> Inv a st'.
Proof.
  intros Hrun Hinv. unfold step_watcher.
  destruct (watcher st) as [| | |[c|]|[msg|]] eqn:Ew.
  - destruct Hinv as [Ha Hc Hw Hs Hn Hf]. unfold watcher_ok, status_ok in *.
    destruct st as [h n ec ecl sg eh w r cl lg hd s]; simpl in *. subst s.
    destruct sg; [done|]. intros [= <-]. setters. inv_goals.
  - destruct Hinv as [Ha Hc Hw Hs Hn Hf]. unfold watcher_ok, status_ok in *.
    destruct st as [h n ec ecl sg eh w r cl lg hd s]; simpl in *. subst s.
    intros [= <-]. setters. inv_goals.
  - pose proof (Close_inv _ _ Hinv) as Hinv'.
    assert (status (fst (Close st)) = Running) as Hrun'.
    { unfold Close. by destruct (IsClosed (handle st)). }
    destruct (Close st) as [st1 ch]. simpl in *. intros [= <-].
    destruct Hinv' as [Ha Hc Hw Hs Hn Hf]. unfold watcher_ok, status_ok in *.
    destruct st1 as [h n ec ecl sg eh w r cl lg hd s]; simpl in *. subst s.
    setters. inv_goals.
  - destruct Hinv as [Ha Hc Hw Hs Hn Hf]. unfold watcher_ok, status_ok in *.
    destruct (closes st !! c) as [[ch pc]|] eqn:Hcc; [|done]. simpl.
    destruct (chan_recv ch) as [[v ch']|] eqn:Hrecv; [|done].
    destruct st as [h n ec ecl sg eh w r cl lg hd s]; simpl in *. subst s.
    split_closes Hcc. apply calls_middle in Hc as [Hcc' Hc].
    destruct (recv_ok _ _ _ _ _ _ Hcc' Hrecv) as [Hv Hok].
    rewrite count_middle in Hn. rewrite done_middle in Hf. simpl in *.
    intros [= <-]. setters. rewrite Hins. inv_goals.
    apply calls_middle. by split.
  - done.
  - destruct Hinv as [Ha Hc Hw Hs Hn Hf]. unfold watcher_ok, status_ok in *.
    destruct st as [h n ec ecl sg eh w r cl lg hd s]; simpl in *. subst s.
    intros [= <-]. setters. inv_goals.
    subst w. exists msg. split; [done|]. by rewrite last_snoc.
  - destruct Hinv as [Ha Hc Hw Hs Hn Hf]. unfold watcher_ok, status_ok in *.
    rewrite Ew in Hw. by destruct Hw as (? & ? & ? & _).
Qed.

Lemma step_router_inv a st st' :
  status st = Running -> Inv a st -> step_router st = Some st' -> Inv a st'.
Proof.
  intros Hrun [Ha Hc Hw Hs Hn Hf]. unfold step_router, watcher_ok, status_ok in *.
  destruct st as [h n ec ecl sg eh w r cl lg hd s]; simpl in *. subst s.
  destruct r as [|err|err|].
  - destruct ec; [destruct ecl|]; try done; intros [= <-]; setters; inv_goals.
  - destruct (isLoggingEnabled h); intros [= <-]; setters; inv_goals.
  - destruct eh; intros [= <-]; setters; inv_goals.
  - done.
Qed.

Lemma step_inv a act st st' :
  Inv a st -> step act st = Some st' -> Inv a st'.
Proof.
  intros Hinv. unfold step.
  destruct (status st) eqn:Hrun; try done.
  destruct act as [| |c|sig|e| |[| |c]];
    eauto using step_watcher_inv, step_router_inv, step_closer_inv.
  - intros [= <-]. by apply Close_inv.
  - destruct Hinv as [Ha Hc Hw Hs Hn Hf]. unfold watcher_ok, status_ok in *.
    destruct st as [h n ec ecl sg eh w r cl lg hd s]; simpl in *. subst s.
    intros [= <-]. setters. inv_goals.
  - destruct Hinv as [Ha Hc Hw Hs Hn Hf]. unfold watcher_ok, status_ok in *.
    destruct (closes st !! c) as [[ch pc]|] eqn:Hcc; [|done]. simpl.
    destruct (chan_recv ch) as [[v ch']|] eqn:Hrecv; [|done].
    destruct st as [h n ec ecl sg eh w r cl lg hd s]; simpl in *. subst s.
    split_closes Hcc. apply calls_middle in Hc as [Hcc' Hc].
    destruct (recv_ok _ _ _ _ _ _ Hcc' Hrecv) as [Hv Hok].
    rewrite count_middle in Hn. rewrite done_middle in Hf. simpl in *.
    intros [= <-]. setters. rewrite Hins. inv_goals.
    apply calls_middle. by split.
  - destruct Hinv as [Ha Hc Hw Hs Hn Hf]. unfold watcher_ok, status_ok in *.
    destruct st as [h n ec ecl sg eh w r cl lg hd s]; simpl in *. subst s.
    destruct (notified sig); [|done].
    destruct (length sg <? 1)%nat; intros [= <-]; setters; inv_goals.
  - destruct Hinv as [Ha Hc Hw Hs Hn Hf]. unfold watcher_ok, status_ok in *.
    destruct st as [h n ec ecl sg eh w r cl lg hd s]; simpl in *. subst s.
    destruct ecl; [done|]. intros [= <-]. setters. inv_goals.
  - destruct Hinv as [Ha Hc Hw Hs Hn Hf]. unfold watcher_ok, status_ok in *.
    destruct st as [h n ec ecl sg eh w r cl lg hd s]; simpl in *. subst s.
    intros [= <-]. setters. inv_goals.
Qed.

Lemma started_inv a h : Inv a (started a h).
Proof.
  constructor; unfold watcher_ok, status_ok; simpl; try done.
  split; [done|]. by rewrite Exists_nil.
Qed.

Lemma reachable_inv a h st :
  reachable (started a h) st -> Inv a st.
Proof.
  induction 1 as [|st act st' _ IH Hstep].
  - apply started_inv.
  - by eapply step_inv.
Qed.

(** ** Schedules, frames and single moves *)

Lemma run_exited sched st :
  status st <> Running -> run sched st = st.
Proof.
  intros H. induction sched as [|act sched IH]; simpl; [done|].
  unfold step. destruct (status st); done.
Qed.

Lemma reachable_run st0 sched st :
  reachable st0 st -> reachable st0 (run sched st).
Proof.
  revert st. induction sched as [|act sched IH]; intros st Hst; simpl; [done|].
  apply IH. destruct (step act st) as [st'|] eqn:E; simpl; [|done].
  by eapply reach_step.
Qed.

Lemma step_closed act st st' :
  step act st = Some st' ->
  isClosed (handle st) = true -> isClosed (handle st') = true.
Proof.
  unfold step, step_watcher, step_router, step_closer, Close, IsClosed.
  intros Hstep Hcl.
  repeat (case_match; simplify_eq; setters; try done).
Qed.

Lemma reachable_closed st st' :
  reachable st st' ->
  isClosed (handle st) = true -> isClosed (handle st') = true.
Proof.
  induction 1 as [|st1 act st2 _ IH Hstep]; [done|].
  intros Hcl. eapply step_closed; eauto.
Qed.

Lemma insert_cases {A} (l : list A) c0 c x0 x x' y :
  l !! c0 = Some x0 -> l !! c = Some x -> <[c0:=y]> l !! c = Some x' ->
  (c = c0 /\ x = x0 /\ x' = y) \/ x' = x.
Proof.
  intros H0 H. destruct (decide (c0 = c)) as [->|Hne].
  - rewrite list_lookup_insert_eq by (by eapply lookup_lt_Some).
    intros [= <-]. left. split_and!; congruence.
  - rewrite list_lookup_insert_ne by done. intros. right. congruence.
Qed.

Lemma chan_recv_length ch v ch' :
  chan_recv ch = Some (v, ch') ->
  (length (buf ch') <= length (buf ch))%nat.
Proof.
  unfold chan_recv. destruct (buf ch) eqn:E.
  - destruct (closed ch); [|done]. intros [= <- <-]. by rewrite E.
  - intros [= <- <-]. simpl. lia.
Qed.

Lemma Close_lookup st c cc :
  closes st !! c = Some cc -> closes (fst (Close st)) !! c = Some cc.
Proof.
  intros H. unfold Close. destruct (IsClosed (handle st)); [done|].
  simpl. rewrite lookup_app_l; [done|]. by eapply lookup_lt_Some.
Qed.

(** Every move leaves each close sequence where it was or takes it forward,
    and only the send statement adds to its channel. *)
Lemma closer_progress act st st' c cc cc' :
  step act st = Some st' ->
  closes st !! c = Some cc -> closes st' !! c = Some cc' ->
  (rank (closer cc) <= rank (closer cc'))%nat /\
  ((length (buf (closeErrorChan cc)) < length (buf (closeErrorChan cc')))%nat ->
   act = Run (Closer c) /\
   exists err, closer cc = C_Send err /\ closer cc' = C_Log).
Proof.
  intros Hstep Hcc Hcc'.
  assert (cc' = cc -> (rank (closer cc) <= rank (closer cc'))%nat /\
    ((length (buf (closeErrorChan cc)) < length (buf (closeErrorChan cc')))%nat ->
     act = Run (Closer c) /\
     exists err, closer cc = C_Send err /\ closer cc' = C_Log)) as Hsame.
  { intros ->. split; [done|lia]. }
  assert (forall c0 cc0 v ch',
    closes st !! c0 = Some cc0 -> chan_recv (closeErrorChan cc0) = Some (v, ch') ->
    <[c0:=mkCloseCall ch' (closer cc0)]> (closes st) !! c = Some cc' ->
    (rank (closer cc) <= rank (closer cc'))%nat /\
    ((length (buf (closeErrorChan cc)) < length (buf (closeErrorChan cc')))%nat ->
     act = Run (Closer c) /\
     exists err, closer cc = C_Send err /\ closer cc' = C_Log)) as Hrecv.
  { intros c0 cc0 v ch' H0 Hr Hl.
    destruct (insert_cases _ _ _ _ _ _ _ H0 Hcc Hl) as [(-> & -> & ->) | ->];
      [|by apply Hsame].
    apply chan_recv_length in Hr. simpl. split; [done|lia]. }
  unfold step in Hstep. destruct (status st); try done.
  destruct act as [| |c0|sig|e| |[| |c0]].
  - injection Hstep as <-. apply Hsame.
    apply (Close_lookup st) in Hcc. congruence.
  - injection Hstep as <-. apply Hsame. setters. congruence.
  - destruct (closes st !! c0) as [cc0|] eqn:H0; [|done].
    destruct (chan_recv (closeErrorChan cc0)) as [[v ch']|] eqn:Hr; [|done].
    injection Hstep as <-. setters. eauto.
  - destruct (notified sig); [|done]. injection Hstep as <-.
    apply Hsame. destruct (length (sigChan st) <? 1)%nat; setters; congruence.
  - destruct (errorsClosed st); [done|]. injection Hstep as <-.
    apply Hsame. setters. congruence.
  - injection Hstep as <-. apply Hsame. setters. congruence.
  - unfold step_watcher in Hstep.
    destruct (watcher st) as [| | |[c0|]|[msg|]].
    + destruct (sigChan st); [done|]. injection Hstep as <-.
      apply Hsame. setters. congruence.
    + injection Hstep as <-. apply Hsame. setters. congruence.
    + apply (Close_lookup st) in Hcc. destruct (Close st) as [st1 ch].
      injection Hstep as <-. apply Hsame. setters. congruence.
    + destruct (closes st !! c0) as [cc0|] eqn:H0; [|done].
      destruct (chan_recv (closeErrorChan cc0)) as [[v ch']|] eqn:Hr; [|done].
      injection Hstep as <-. setters. eauto.
    + done.
    + injection Hstep as <-. apply Hsame. setters. congruence.
    + injection Hstep as <-. apply Hsame. setters. congruence.
  - unfold step_router in Hstep. apply Hsame.
    destruct (router st); repeat case_match; simplify_eq; setters; congruence.
  - unfold step_closer in Hstep.
    destruct (closes st !! c0) as [cc0|] eqn:H0; [|done].
    destruct cc0 as [ch0 pc0]. simpl in Hstep.
    destruct pc0 as [|[e|]|err| | |]; try done.
    + injection Hstep as <-. setters.
      destruct (insert_cases _ _ _ _ _ _ _ H0 Hcc Hcc') as [(-> & -> & ->) | ->];
        [|by apply Hsame]. simpl. split; lia.
    + destruct (isLoggingEnabled (handle st)); injection Hstep as <-; setters.
      * apply Hsame. congruence.
      * destruct (insert_cases _ _ _ _ _ _ _ H0 Hcc Hcc') as [(-> & -> & ->) | ->];
          [|by apply Hsame]. simpl. split; lia.
    + injection Hstep as <-. setters.
      destruct (insert_cases _ _ _ _ _ _ _ H0 Hcc Hcc') as [(-> & -> & ->) | ->];
        [|by apply Hsame]. simpl. split; lia.
    + destruct (chan_send err ch0) as [ch1| |] eqn:Hs; [| done |].
      * injection Hstep as <-. setters.
        destruct (insert_cases _ _ _ _ _ _ _ H0 Hcc Hcc') as [(-> & -> & ->) | ->];
          [|by apply Hsame]. simpl. split; [lia|]. intros _. split; [done|].
        by exists err.
      * injection Hstep as <-. apply Hsame. setters. congruence.
    + injection Hstep as <-.
      assert (<[c0:=mkCloseCall ch0 C_SetClosed]> (closes st) !! c = Some cc') as Hl.
      { destruct (isLoggingEnabled (handle st)); setters; done. }
      destruct (insert_cases _ _ _ _ _ _ _ H0 Hcc Hl) as [(-> & -> & ->) | ->];
        [|by apply Hsame]. simpl. split; lia.
    + injection Hstep as <-. setters.
      destruct (insert_cases _ _ _ _ _ _ _ H0 Hcc Hcc') as [(-> & -> & ->) | ->];
        [|by apply Hsame]. simpl. split; lia.
Qed.

Lemma middle_split {A} (l : list A) (c : nat) (x : A) :
  l !! c = Some x ->
  exists l1 l2 : list A, l = l1 ++ x :: l2 /\ c = length l1.
Proof.
  intros H. exists (take c l), (drop (S c) l). split.
  - symmetry. by apply take_drop_middle.
  - rewrite length_take. apply lookup_lt_Some in H. lia.
Qed.

Lemma insert_middle {A} (l1 l2 : list A) (x y : A) :
  <[length l1:=y]> (l1 ++ x :: l2) = l1 ++ y :: l2.
Proof. induction l1 as [|z l1 IH]; simpl; [done|]. by rewrite IH. Qed.

(** One move of a close sequence, on a state laid out around it. *)
Lemma step_closer_middle h n ec ecl sg eh w r l1 ch pc l2 lg hd :
  step (Run (Closer (length l1)))
    (mkState h n ec ecl sg eh w r (l1 ++ mkCloseCall ch pc :: l2) lg hd Running) =
  match pc with
  | C_Close =>
      Some (mkState h (S n) ec ecl sg eh w r
              (l1 ++ mkCloseCall ch (C_CheckErr (adapterClose (producer h) n)) :: l2)
              lg hd Running)
  | C_CheckErr None =>
      Some (mkState h n ec ecl sg eh w r (l1 ++ mkCloseCall ch C_Log :: l2)
              lg hd Running)
  | C_CheckErr (Some e) =>
      if isLoggingEnabled h
      then Some (mkState h n ec ecl sg eh w r
                   (l1 ++ mkCloseCall ch (C_CheckErr (Some e)) :: l2)
                   (lg ++ [FatalClose (Some e)]) hd (Exited (Closer (length l1))))
      else Some (mkState h n ec ecl sg eh w r
                   (l1 ++ mkCloseCall ch (C_Send (Some e)) :: l2) lg hd Running)
  | C_Send err =>
      match chan_send err ch with
      | SendOk ch' =>
          Some (mkState h n ec ecl sg eh w r (l1 ++ mkCloseCall ch' C_Log :: l2)
                  lg hd Running)
      | SendBlocked => None
      | SendPanic =>
          Some (mkState h n ec ecl sg eh w r (l1 ++ mkCloseCall ch (C_Send err) :: l2)
                  lg hd (Panicked (Closer (length l1))))
      end
  | C_Log =>
      Some (mkState h n ec ecl sg eh w r (l1 ++ mkCloseCall ch C_SetClosed :: l2)
              (if isLoggingEnabled h
               then lg ++ [Println "Async Producer closed."] else lg)
              hd Running)
  | C_SetClosed =>
      Some (mkState (mkProducer (producer h) true (isLoggingEnabled h))
              n ec ecl sg eh w r (l1 ++ mkCloseCall ch C_Done :: l2) lg hd Running)
  | C_Done => None
  end.
Proof.
  unfold step, step_closer. simpl.
  rewrite list_lookup_middle by done. simpl.
  destruct pc as [|[e|]|err| | |]; setters;
    repeat case_match; simpl; rewrite ?insert_middle; done.
Qed.

(** ** The claims *)

(** C1 (the claim: N concurrent calls of [Close()] execute the Adapter's
    close exactly once and report at most one non-nil error).  The code
    reads the flag in [Close] and writes it only at the end of the goroutine
    it starts, so two calls made before the first goroutine finishes both
    find the flag false: the Adapter's [Close()] runs twice, and with a
    failing Adapter two errors are reported, one on each result channel. *)
Theorem Close_twice_closes_twice :
  let st := run two_closes (started failing_adapter None) in
  closeCalls st = 2%nat /\
  map (fun cc => buf (closeErrorChan cc)) (closes st) =
    [[Some "boom"]; [Some "boom"]] /\
  status st = Running /\
  isClosed (handle st) = true.
Proof. split_and!; reflexivity. Qed.

(** C2, as stated, fails: on a closed handle [Close] returns nil, that is no
    channel at all, and not a channel that is closed or empty. *)
Lemma Close_closed_returns_nil :
  ~ (exists c cc,
       snd (Close closed_state) = Some c /\
       closes (fst (Close closed_state)) !! c = Some cc /\
       (closed (closeErrorChan cc) = true \/ buf (closeErrorChan cc) = [])).
Proof. intros (c & cc & H & _). discriminate H. Qed.

(** C2, amended: once the closed-flag is true, it stays true; [Input] fails
    with a [ResourceClosedError] (code 4) and returns no channel; [Close]
    changes nothing (no goroutine is started, the Adapter is not called) and
    returns nil, and a receive from that nil channel waits forever. *)
Theorem closed_handle now st :
  isClosed (handle st) = true ->
  Input now (handle st) =
    (None, Some (mkProxyError 4 now "Producer already closed.")) /\
  Close st = (st, None) /\
  (status st = Running -> step CallClose st = Some st) /\
  (watcher st = W_Recv None -> step (Run Watcher) st = None) /\
  (forall st', reachable st st' -> isClosed (handle st') = true).
Proof.
  intros Hcl. split_and!.
  - unfold Input, IsClosed. by rewrite Hcl.
  - unfold Close, IsClosed. by rewrite Hcl.
  - intros Hrun. unfold step, Close, IsClosed. by rewrite Hrun, Hcl.
  - intros Hw. unfold step, step_watcher. rewrite Hw.
    by destruct (status st).
  - intros st' Hr. by eapply reachable_closed.
Qed.

(** The amended C2 at a closed handle. *)
Lemma closed_handle_witness :
  isClosed (handle closed_state) = true /\
  Close closed_state = (closed_state, None).
Proof.
  split; [reflexivity|].
  exact (proj1 (proj2 (closed_handle 0 closed_state eq_refl))).
Defined.

(** C3: in every state reachable after [New], the signal watcher has not
    panicked; it has ended the process only after receiving a non-nil error
    that the Adapter's [Close()] returned, whose text is the last line
    logged.  Its statements in order: it waits for a signal, logs the
    receipt whatever the logging flag is, calls [Close()], and receives from
    the returned channel.  On nil (the handle was already closed) and on a
    channel that holds nothing the receive waits; what it receives is never
    nil, so [closeError.Error()] does not dereference an absent error. *)
Theorem watcher_shutdown a h st :
  reachable (started a h) st ->
  status st <> Panicked Watcher /\
  (status st = Exited Watcher ->
     exists msg k, (k < closeCalls st)%nat /\ adapterClose a k = Some msg /\
                   last (logged st) = Some (FatalString msg)) /\
  (status st = Running ->
     (watcher st = W_WaitSignal ->
        match sigChan st with
        | [] => step (Run Watcher) st = None
        | _ :: rest =>
            step (Run Watcher) st = Some (set_watcher W_Log (set_sigChan rest st))
        end) /\
     (watcher st = W_Log ->
        step (Run Watcher) st =
          Some (set_watcher W_Close
                  (add_log (Println "Keyboard-Interrupt signal received.") st))) /\
     (watcher st = W_Close ->
        step (Run Watcher) st =
          Some (set_watcher (W_Recv (snd (Close st))) (fst (Close st))) /\
        (isClosed (handle st) = true -> snd (Close st) = None)) /\
     (watcher st = W_Recv None -> step (Run Watcher) st = None) /\
     (forall c cc, watcher st = W_Recv (Some c) -> closes st !! c = Some cc ->
        match buf (closeErrorChan cc) with
        | [] => step (Run Watcher) st = None
        | v :: rest =>
            exists msg, v = Some msg /\ rest = [] /\
              step (Run Watcher) st =
                Some (set_watcher (W_Fatal (Some msg))
                        (set_chan c cc (mkChan [] 1 false) st))
        end) /\
     (forall v, watcher st = W_Fatal v ->
        exists msg, v = Some msg /\
          step (Run Watcher) st = Some (log_fatal Watcher (FatalString msg) st))).
Proof.
  intros Hreach. apply reachable_inv in Hreach as [Ha Hc Hw Hs Hn Hf].
  unfold watcher_ok, status_ok in *. split_and!.
  - intros E. by rewrite E in Hs.
  - intros E. rewrite E in Hs. destruct Hs as (msg & (m & k & [= <-] & Hk & Hm) & Hl).
    by exists msg, k.
  - intros Hrun. unfold step, step_watcher. rewrite Hrun. split_and!.
    + intros ->. by destruct (sigChan st).
    + by intros ->.
    + intros ->. split; [by destruct (Close st)|].
      unfold Close, IsClosed. by intros ->.
    + by intros ->.
    + intros c [ch pc] -> Hcc. rewrite Hcc. simpl.
      rewrite Forall_lookup in Hc. destruct (Hc _ _ Hcc) as (Hcap & Hcl & Hpc).
      simpl in *. unfold chan_recv.
      destruct (buf ch) as [|v rest] eqn:Hb; [by rewrite Hcl|].
      assert (rest = [] /\ from_adapter a (closeCalls st) v) as [-> Hv].
      { destruct pc; simpl in *; try done; try (by destruct Hpc);
          by destruct Hpc as [? | (w & [= -> ->] & Hv)]. }
      destruct Hv as (msg & k & -> & _). exists msg. split_and!; try done.
      by rewrite Hcap, Hcl.
    + intros v Ev. rewrite Ev in *. destruct Hw as (msg & k & -> & _).
      by exists msg.
Qed.

(** C3 on a run: SIGINT arrives, the Adapter's close fails, the watcher
    logs the error and ends the process. *)
Lemma watcher_shutdown_witness :
  let st := run interrupt (started failing_adapter None) in
  reachable (started failing_adapter None) st /\
  status st = Exited Watcher /\
  exists msg k, (k < closeCalls st)%nat /\
                adapterClose failing_adapter k = Some msg /\
                last (logged st) = Some (FatalString msg).
Proof.
  assert (reachable (started failing_adapter None)
            (run interrupt (started failing_adapter None))) as Hr.
  { apply reachable_run. constructor. }
  split; [exact Hr|]. split; [reflexivity|].
  exact (proj1 (proj2 (watcher_shutdown failing_adapter None _ Hr)) eq_refl).
Defined.

(** C4, as stated, fails: with logging enabled a failing close of the
    Adapter ends the process in [log.Fatal] before the send, so the error is
    never put on the result channel. *)
Lemma fatal_close_reports_nothing :
  let st := run logged_close (started failing_adapter None) in
  closeCalls st = 1%nat /\
  adapterClose failing_adapter 0 = Some "boom" /\
  ~ (exists sched c cc,
       closes (run sched st) !! c = Some cc /\ buf (closeErrorChan cc) <> []).
Proof.
  split_and!; [reflexivity..|]. intros (sched & c & cc & H & Hb).
  rewrite run_exited in H by done.
  destruct c as [|c]; [|destruct c; discriminate H].
  injection H as <-. by apply Hb.
Qed.

(** C4, amended: [Close()] on an open handle makes a result channel of
    capacity 1 and starts one goroutine.  Each goroutine calls the
    Adapter's [Close()] once (the calls made so far are the goroutines past
    their first statement) and never goes back.  When that call fails, the
    goroutine sends the error if logging is disabled, and logs and ends the
    process otherwise.  The send always finds the channel empty, so it does
    not wait, whether or not anyone receives.  A result channel holds
    nothing or the one error the Adapter returned, and nothing is added to it
    except by that single send. *)
Theorem close_result_channel a h st :
  reachable (started a h) st -> status st = Running ->
  (isClosed (handle st) = false ->
     Close st =
       (set_closes (closes st ++ [mkCloseCall (mkChan [] 1 false) C_Close]) st,
        Some (length (closes st)))) /\
  closeCalls st = length (List.filter past_close (closes st)) /\
  (forall c cc, closes st !! c = Some cc ->
     cap (closeErrorChan cc) = 1%nat /\
     (buf (closeErrorChan cc) = [] \/
      exists msg k, buf (closeErrorChan cc) = [Some msg] /\
                    (k < closeCalls st)%nat /\ adapterClose a k = Some msg) /\
     (forall msg, closer cc = C_CheckErr (Some msg) ->
        step (Run (Closer c)) st =
          Some (if isLoggingEnabled (handle st)
                then log_fatal (Closer c) (FatalClose (Some msg)) st
                else set_closer c cc (C_Send (Some msg)) st)) /\
     (forall err, closer cc = C_Send err ->
        step (Run (Closer c)) st =
          Some (set_closes
                  (<[c:=mkCloseCall (mkChan [err] 1 false) C_Log]> (closes st))
                  st))) /\
  (forall act st' c cc cc',
     step act st = Some st' ->
     closes st !! c = Some cc -> closes st' !! c = Some cc' ->
     (rank (closer cc) <= rank (closer cc'))%nat /\
     ((length (buf (closeErrorChan cc)) < length (buf (closeErrorChan cc')))%nat ->
      act = Run (Closer c) /\
      exists err, closer cc = C_Send err /\ closer cc' = C_Log)).
Proof.
  intros Hreach Hrun. apply reachable_inv in Hreach as [Ha Hc Hw Hs Hn Hf].
  split_and!.
  - intros Hcl. unfold Close, IsClosed. by rewrite Hcl.
  - done.
  - intros c [ch pc] Hcc. simpl.
    rewrite Forall_lookup in Hc. destruct (Hc _ _ Hcc) as (Hcap & Hcl & Hpc).
    simpl in *. split_and!.
    + done.
    + destruct pc; simpl in Hpc; try (left; by destruct Hpc); try (by left);
        (destruct Hpc as [?|(v & Hv & msg & k & -> & Hk & Hm)]; [by left|];
         right; by exists msg, k).
    + intros msg ->. unfold step, step_closer. rewrite Hrun, Hcc. simpl.
      by destruct (isLoggingEnabled (handle st)).
    + intros err ->. unfold step, step_closer. rewrite Hrun, Hcc. simpl.
      destruct Hpc as [Hb _]. unfold chan_send. rewrite Hcl, Hb, Hcap. simpl.
      destruct ch; simpl in *. by subst.
  - intros act st' c cc cc'. apply closer_progress.
Qed.

(** The amended C4 on a run: the Adapter's close has failed with logging
    off, and the send goes through with nobody receiving. *)
Lemma close_result_channel_witness :
  let st := run [CallClose; Run (Closer 0); Run (Closer 0)]
              (started failing_adapter None) in
  (reachable (started failing_adapter None) st /\ status st = Running) /\
  step (Run (Closer 0)) st =
    Some (set_closes [mkCloseCall (mkChan [Some "boom"] 1 false) C_Log] st).
Proof.
  assert (reachable (started failing_adapter None)
            (run [CallClose; Run (Closer 0); Run (Closer 0)]
               (started failing_adapter None))) as Hr.
  { apply reachable_run. constructor. }
  split; [split; [exact Hr | reflexivity]|].
  pose proof (close_result_channel failing_adapter None _ Hr eq_refl)
    as (_ & _ & H & _).
  destruct (H 0%nat (mkCloseCall (make_chan 1) (C_Send (Some "boom"))) eq_refl)
    as (_ & _ & _ & Hsend).
  exact (Hsend (Some "boom") eq_refl).
Defined.

(** C5, as stated, fails: with logging enabled a failing close of the
    Adapter ends the process in [log.Fatal]; the close attempt has
    completed and the flag is never written. *)
Lemma fatal_close_leaves_flag_unset :
  let st := run logged_close (started failing_adapter None) in
  closeCalls st = 1%nat /\
  ~ (exists sched, isClosed (handle (run sched st)) = true).
Proof.
  split; [reflexivity|]. intros [sched H].
  rewrite run_exited in H by done. discriminate H.
Qed.

(** C5, amended: the closed-flag is true exactly when some close sequence
    has executed its last statement.  A close sequence that runs from its
    start calls the Adapter's [Close()] first and leaves the flag as it was;
    after a clean close, and after a failed close with logging disabled, it
    goes on to the write of the flag, which is its last step: until then
    the flag is unchanged (so [IsClosed()] may still answer false), after it
    the flag is true and the goroutine has nothing left to do.  After a
    failed close with logging enabled the process ends in [log.Fatal]
    with the flag unchanged. *)
Theorem close_sequence_flag a h st :
  reachable (started a h) st ->
  (isClosed (handle st) = true <->
   Exists (fun cc => is_done cc = true) (closes st)) /\
  forall c cc,
    status st = Running -> closes st !! c = Some cc -> closer cc = C_Close ->
    let go k := run (replicate k (Run (Closer c))) st in
    let pc_of s := closer <$> closes s !! c in
    closeCalls (go 1%nat) = S (closeCalls st) /\
    isClosed (handle (go 1%nat)) = isClosed (handle st) /\
    match adapterClose a (closeCalls st) with
    | None =>
        pc_of (go 3%nat) = Some C_SetClosed /\
        isClosed (handle (go 3%nat)) = isClosed (handle st) /\
        pc_of (go 4%nat) = Some C_Done /\
        isClosed (handle (go 4%nat)) = true /\
        step (Run (Closer c)) (go 4%nat) = None
    | Some msg =>
        if isLoggingEnabled (handle st)
        then status (go 2%nat) = Exited (Closer c) /\
             isClosed (handle (go 2%nat)) = isClosed (handle st)
        else pc_of (go 4%nat) = Some C_SetClosed /\
             isClosed (handle (go 4%nat)) = isClosed (handle st) /\
             pc_of (go 5%nat) = Some C_Done /\
             isClosed (handle (go 5%nat)) = true /\
             step (Run (Closer c)) (go 5%nat) = None
    end.
Proof.
  intros Hreach. apply reachable_inv in Hreach as [Ha Hc Hw Hs Hn Hf].
  split; [done|]. intros c [ch pc] Hrun Hcc Hpc. simpl in Hpc. subst pc.
  rewrite Forall_lookup in Hc. destruct (Hc _ _ Hcc) as (Hcap & Hcl & Hb).
  destruct (middle_split _ _ _ Hcc) as (l1 & l2 & Hl & ->).
  destruct st as [[ad cf lf] n ec ecl sg eh w r cl lg hd s]. simpl in *.
  destruct ch as [b cp clo]. simpl in *. subst.
  rewrite !step_closer_middle. simpl. split_and!; try done.
  destruct (adapterClose _ _) as [msg|] eqn:E; simpl.
  - rewrite !step_closer_middle. destruct lf; simpl.
    + split; [|done]. unfold step. done.
    + rewrite !step_closer_middle. simpl. rewrite !step_closer_middle. simpl.
      rewrite !step_closer_middle. simpl. rewrite !step_closer_middle.
      rewrite !list_lookup_middle by done. done.
  - rewrite !step_closer_middle. simpl. rewrite !step_closer_middle. simpl.
    rewrite !step_closer_middle. simpl. rewrite !step_closer_middle.
    rewrite !list_lookup_middle by done. done.
Qed.

(** The amended C5 on a run: one [Close()], a failing Adapter, logging
    off; the flag is false after four moves and true after the fifth. *)
Lemma close_sequence_flag_witness :
  let st := run [CallClose] (started failing_adapter None) in
  (reachable (started failing_adapter None) st /\ status st = Running /\
   closes st !! 0%nat = Some (mkCloseCall (make_chan 1) C_Close)) /\
  isClosed (handle (run (replicate 4 (Run (Closer 0))) st)) = false /\
  isClosed (handle (run (replicate 5 (Run (Closer 0))) st)) = true.
Proof.
  assert (reachable (started failing_adapter None)
            (run [CallClose] (started failing_adapter None))) as Hr.
  { apply reachable_run. constructor. }
  split; [split_and!; [exact Hr | reflexivity | reflexivity]|].
  pose proof (proj2 (close_sequence_flag failing_adapter None _ Hr) 0%nat
                (mkCloseCall (make_chan 1) C_Close)
                eq_refl eq_refl eq_refl) as H.
  simpl in H. split; [apply H | apply H].
Defined.

(** C6: the error router takes a delivery error [e] from the Adapter's
    error channel.  With logging enabled it logs and ends the process, and
    the handler is not called.  With logging disabled and a handler [H]
    supplied, [H] is called once with [e], nothing is logged, the process
    keeps running and the router is back at its receive. *)
Theorem router_dispatch st e rest :
  status st = Running -> router st = R_Range -> errorsChan st = e :: rest ->
  (isLoggingEnabled (handle st) = true ->
     let st' := run [Run Router; Run Router; Run Router] st in
     status st' = Exited Router /\
     logged st' = logged st ++ [FatalProduce e] /\
     handled st' = handled st) /\
  (isLoggingEnabled (handle st) = false ->
     forall H, errHandler st = Some H ->
     let st' := run [Run Router; Run Router; Run Router] st in
     status st' = Running /\
     handled st' = handled st ++ [(H, e)] /\
     logged st' = logged st /\
     router st' = R_Range /\
     errorsChan st' = rest).
Proof.
  destruct st as [[ad cf lf] n ec ecl sg eh w r cl lg hd s]; simpl.
  intros -> -> ->. split.
  - intros ->. split_and!; reflexivity.
  - intros -> H ->. split_and!; reflexivity.
Qed.

(** C6 on a run: one delivery error, handler 3, logging off. *)
Lemma router_dispatch_witness :
  let st := run [AdapterError sample_error] (started clean_adapter (Some 3%nat)) in
  (status st = Running /\ router st = R_Range /\
   errorsChan st = [sample_error]) /\
  handled (run [Run Router; Run Router; Run Router] st) = [(3%nat, sample_error)].
Proof.
  split; [split_and!; reflexivity|].
  refine (proj1 (proj2 (proj2 (router_dispatch
            (run [AdapterError sample_error] (started clean_adapter (Some 3%nat)))
            sample_error [] _ _ _) _ 3%nat _))); reflexivity.
Defined.

(** C7: when the broker list is nil or empty, [New] returns no handle and
    a [BrokersNotSetError] (code 1), whatever the handler, the override and
    the library functions are. *)
Theorem New_without_brokers NewConfig NewAsyncProducer now initConfig :
  KafkaBrokers initConfig = None \/ KafkaBrokers initConfig = Some [] ->
  New NewConfig NewAsyncProducer now initConfig =
    (None, Some (mkProxyError 1 now "No Kafka Brokers set.")).
Proof. intros [H|H]; unfold New; by rewrite H. Qed.

(** C7 at a configuration with a handler, an override and no brokers. *)
Lemma New_without_brokers_witness :
  KafkaBrokers (mkConfig (Some 3%nat) (Some []) (Some library_defaults)) = Some [] /\
  New library_defaults connect_ok 42
      (mkConfig (Some 3%nat) (Some []) (Some library_defaults)) =
    (None, Some (mkProxyError 1 42 "No Kafka Brokers set.")).
Proof.
  split; [reflexivity|].
  apply (New_without_brokers library_defaults connect_ok 42
           (mkConfig (Some 3%nat) (Some []) (Some library_defaults))).
  right. reflexivity.
Defined.

(** C8: [CreateMessage] is [CreateKeyMessage] with the empty key; with the
    empty key the message has no key; with a non-empty key [k] its key is
    [k]; topic and value are the ones given. *)
Theorem CreateKeyMessage_key topic value :
  CreateMessage topic value = CreateKeyMessage topic "" value /\
  CreateKeyMessage topic "" value =
    sarama.mkProducerMessage topic None
      (Some (sarama.StringEncoder value)) 0 0 /\
  forall c k,
    CreateKeyMessage topic (String c k) value =
      sarama.mkProducerMessage topic
        (Some (sarama.StringEncoder (String c k)))
        (Some (sarama.StringEncoder value)) 0 0.
Proof. split_and!; try done. Qed.

(** C9: with logging disabled and no handler supplied, draining a delivery
    error reaches the call of the nil handler, and the router panics. *)
Theorem router_nil_handler st e rest :
  status st = Running -> router st = R_Range -> errorsChan st = e :: rest ->
  isLoggingEnabled (handle st) = false -> errHandler st = None ->
  let st' := run [Run Router; Run Router; Run Router] st in
  status st' = Panicked Router /\ handled st' = handled st /\
  logged st' = logged st.
Proof.
  destruct st as [[ad cf lf] n ec ecl sg eh w r cl lg hd s]; simpl.
  intros -> -> -> -> ->. split_and!; reflexivity.
Qed.

(** C9 on a run: one delivery error, no handler, logging off. *)
Lemma router_nil_handler_witness :
  let st := run [AdapterError sample_error] (started clean_adapter None) in
  (status st = Running /\ router st = R_Range /\
   errorsChan st = [sample_error] /\
   isLoggingEnabled (handle st) = false /\ errHandler st = None) /\
  status (run [Run Router; Run Router; Run Router] st) = Panicked Router.
Proof.
  split; [split_and!; reflexivity|].
  refine (proj1 (router_nil_handler
            (run [AdapterError sample_error] (started clean_adapter None))
            sample_error [] _ _ _ _ _)); reflexivity.
Defined.

(** C10: with an override, [New] hands exactly that configuration to
    [sarama.NewAsyncProducer]; without one, it hands over
    [sarama.NewConfig()] with delivery errors returned, acknowledgement
    required from all replicas and no compression, the other settings as
    the library made them. *)
Theorem New_config NewConfig NewAsyncProducer now handler b bs :
  (forall override,
     chosenConfig NewConfig (mkConfig handler (Some (b :: bs)) (Some override))
       = override /\
     New NewConfig NewAsyncProducer now
         (mkConfig handler (Some (b :: bs)) (Some override)) =
       match NewAsyncProducer (b :: bs) override with
       | inl adapter => (Some (started adapter handler), None)
       | inr err => (None, Some (mkProxyError 2 now err))
       end) /\
  chosenConfig NewConfig (mkConfig handler (Some (b :: bs)) None) =
    sarama.mkConfig true sarama.WaitForAll sarama.CompressionNone
      (sarama.OtherSettings NewConfig) /\
  New NewConfig NewAsyncProducer now (mkConfig handler (Some (b :: bs)) None) =
    match NewAsyncProducer (b :: bs)
            (sarama.mkConfig true sarama.WaitForAll sarama.CompressionNone
               (sarama.OtherSettings NewConfig)) with
    | inl adapter => (Some (started adapter handler), None)
    | inr err => (None, Some (mkProxyError 2 now err))
    end.
Proof.
  split_and!; [|reflexivity..].
  intros override. split; reflexivity.
Qed.

(** ** Further properties of the two packages *)

Lemma constructors_lookup i f :
  constructors !! i = Some f ->
  f = fun now messages => createError now (Z.of_nat i + 1) messages.
Proof.
  intros Hi. do 5 (destruct i as [|i]; [by injection Hi as <-|]). done.
Qed.

(** X1: the i-th constructor of [pkg/proxyerror] (counting from 0) makes an
    error with code i+1 and the time it was given; errors made by two
    different constructors are never equal, whatever the times and
    messages. *)
Theorem constructor_codes i j f g now1 now2 m1 m2 :
  constructors !! i = Some f -> constructors !! j = Some g ->
  Code (f now1 m1) = Z.of_nat i + 1 /\
  Time (f now1 m1) = now1 /\
  (f now1 m1 = g now2 m2 -> i = j).
Proof.
  intros ->%constructors_lookup ->%constructors_lookup.
  split_and!; [done..|]. unfold createError. intros [= H _ _]. lia.
Qed.

(** X1 at [ResourceClosedError]. *)
Lemma constructor_codes_witness :
  (constructors !! 3%nat = Some ResourceClosedError /\
   constructors !! 3%nat = Some ResourceClosedError) /\
  Code (ResourceClosedError 9 ["Producer already closed."]) = 4.
Proof.
  split; [split; reflexivity|].
  exact (proj1 (constructor_codes 3 3 ResourceClosedError ResourceClosedError
                  9 9 ["Producer already closed."] [] eq_refl eq_refl)).
Defined.

Lemma append_assoc (a b c : string) :
  ((a +:+ b) +:+ c = a +:+ (b +:+ c))%string.
Proof.
  induction a as [|x a IH]; [done|].
  change (String x ((a +:+ b) +:+ c) = String x (a +:+ b +:+ c))%string.
  by rewrite IH.
Qed.

Lemma concat_app_sep (sep : string) (l1 l2 : list string) :
  l1 <> [] -> l2 <> [] ->
  String.concat sep (l1 ++ l2) =
    (String.concat sep l1 +:+ sep +:+ String.concat sep l2)%string.
Proof.
  intros H1 H2. induction l1 as [|x l1 IH]; [done|].
  destruct l1 as [|y l1].
  - simpl. destruct l2; [done|]. done.
  - specialize (IH ltac:(done)). simpl in *. rewrite IH.
    by rewrite !append_assoc.
Qed.

(** X2: the message of an error is the given messages joined by ": ": for
    two non-empty lists it is the message of the first, then ": ", then
    the message of the second; no message gives the empty string, and a
    single message is kept as it is. *)
Theorem createError_join now code (ms1 ms2 : list string) :
  ms1 <> [] -> ms2 <> [] ->
  Message (createError now code (ms1 ++ ms2)) =
    (Message (createError now code ms1) +:+ ": " +:+
     Message (createError now code ms2))%string /\
  Message (createError now code []) = "" /\
  forall m, Message (createError now code [m]) = m.
Proof.
  intros H1 H2. split_and!; [|done..]. simpl. by apply concat_app_sep.
Qed.

(** X2 at a connection error with three messages. *)
Lemma createError_join_witness :
  (["resource"; "kafka"] <> [] /\ ["timeout"] <> []) /\
  Message (ConnectionError 0 ["resource"; "kafka"; "timeout"]) =
    "resource: kafka: timeout".
Proof.
  split; [split; discriminate|].
  exact (proj1 (createError_join 0 2 ["resource"; "kafka"] ["timeout"]
                  ltac:(discriminate) ltac:(discriminate))).
Defined.

(** X3: [New] returns exactly one of a handle and an error.  A handle
    comes only from a non-empty broker list and a successful
    [sarama.NewAsyncProducer] on the chosen configuration; it is open, has
    logging off, and [Input] on it gives the Adapter's input channel.  An
    error carries the time of the call and has code 1 (broker list nil or
    empty) or code 2 with the text of the library's error as its
    message. *)
Theorem New_result NewConfig NewAsyncProducer now initConfig :
  match New NewConfig NewAsyncProducer now initConfig with
  | (Some st, None) =>
      exists b bs adapter,
        KafkaBrokers initConfig = Some (b :: bs) /\
        NewAsyncProducer (b :: bs) (chosenConfig NewConfig initConfig) =
          inl adapter /\
        st = started adapter (ErrHandler initConfig) /\
        IsClosed (handle st) = false /\
        isLoggingEnabled (handle st) = false /\
        forall t, Input t (handle st) = (Some (adapterInput adapter), None)
  | (None, Some e) =>
      Time e = now /\
      ((Code e = 1 /\ Message e = "No Kafka Brokers set." /\
        (KafkaBrokers initConfig = None \/ KafkaBrokers initConfig = Some [])) \/
       (Code e = 2 /\
        exists b bs,
          KafkaBrokers initConfig = Some (b :: bs) /\
          NewAsyncProducer (b :: bs) (chosenConfig NewConfig initConfig) =
            inr (Message e)))
  | _ => False
  end.
Proof.
  unfold New. destruct (KafkaBrokers initConfig) as [[|b bs]|] eqn:Hb; simpl.
  - split; [done|]. left. eauto.
  - destruct (NewAsyncProducer _ _) as [adapter|err] eqn:E.
    + exists b, bs, adapter. split_and!; done.
    + split; [done|]. right. split; [done|]. by exists b, bs.
  - split; [done|]. left. eauto.
Qed.

(** X4: a message made by [CreateKeyMessage] determines the topic, key and
    value it was made from. *)
Theorem CreateKeyMessage_injective topic key value topic' key' value' :
  CreateKeyMessage topic key value = CreateKeyMessage topic' key' value' ->
  topic = topic' /\ key = key' /\ value = value'.
Proof.
  unfold CreateKeyMessage. destruct key, key'; simpl; intros [=]; by subst.
Qed.

(** X4 at a keyless message. *)
Lemma CreateKeyMessage_injective_witness :
  CreateMessage "t" "v" = CreateKeyMessage "t" "" "v" /\
  ("t" = "t" /\ "" = "" /\ "v" = "v").
Proof.
  split; [reflexivity|].
  exact (CreateKeyMessage_injective "t" "" "v" "t" "" "v" eq_refl).
Defined.

Lemma step_running act st st' :
  step act st = Some st' -> status st = Running.
Proof. unfold step. by destruct (status st). Qed.

Lemma reachable_front st act st1 st' :
  step act st = Some st1 -> reachable st1 st' -> reachable st st'.
Proof.
  intros Hstep. induction 1 as [|st2 act' st3 _ IH Hstep'].
  - eapply reach_step; [constructor | done].
  - by eapply reach_step.
Qed.

Lemma exec_reachable sched st st' :
  exec sched st = Some st' -> reachable st st'.
Proof.
  revert st. induction sched as [|act sched IH]; intros st; simpl.
  - intros [= <-]. constructor.
  - destruct (step act st) as [st1|] eqn:E; [|done].
    intros H. eapply reachable_front; eauto.
Qed.

Lemma exec_running sched st st' :
  exec sched st = Some st' -> status st' = Running -> status st = Running.
Proof.
  destruct sched as [|act sched]; simpl.
  - by intros [= <-].
  - destruct (step act st) as [st1|] eqn:E; [|done].
    intros _ _. by eapply step_running.
Qed.

Lemma step_logging act st st' :
  step act st = Some st' ->
  isLoggingEnabled (handle st) = true -> isLoggingEnabled (handle st') = true.
Proof.
  unfold step, step_watcher, step_router, step_closer, Close, IsClosed.
  intros Hstep Hcl.
  repeat (case_match; simplify_eq; setters; try done).
Qed.

Lemma step_handler act st st' :
  step act st = Some st' -> errHandler st' = errHandler st.
Proof.
  unfold step, step_watcher, step_router, step_closer, Close, IsClosed.
  intros Hstep.
  repeat (case_match; simplify_eq; setters; try done).
Qed.

Lemma reachable_handler st st' :
  reachable st st' -> errHandler st' = errHandler st.
Proof.
  induction 1 as [|st1 act st2 _ IH Hstep]; [done|].
  apply step_handler in Hstep. congruence.
Qed.

(** X5: once logging is enabled it is enabled in every later state, and
    calling [EnableLogging] again changes nothing. *)
Theorem EnableLogging_sticks st st' :
  reachable st st' ->
  isLoggingEnabled (handle st) = true ->
  isLoggingEnabled (handle st') = true /\
  EnableLogging (handle st') = handle st'.
Proof.
  intros Hr Hl.
  assert (isLoggingEnabled (handle st') = true) as H.
  { induction Hr as [|st1 act st2 _ IH Hstep]; [done|].
    eapply step_logging; eauto. }
  split; [done|]. unfold EnableLogging. destruct (handle st'); simpl in *.
  by subst.
Qed.

(** X5 on a run: logging enabled, then a signal and a clean close. *)
Lemma EnableLogging_sticks_witness :
  let st := run [CallEnableLogging] (started clean_adapter None) in
  let st' := run interrupt st in
  (reachable st st' /\ isLoggingEnabled (handle st) = true) /\
  isLoggingEnabled (handle st') = true.
Proof.
  assert (reachable (run [CallEnableLogging] (started clean_adapter None))
            (run interrupt (run [CallEnableLogging] (started clean_adapter None))))
    as Hr.
  { apply reachable_run. constructor. }
  split; [split; [exact Hr | reflexivity]|].
  exact (proj1 (EnableLogging_sticks _ _ Hr eq_refl)).
Defined.



Lemma step_exit_ok a act st st' :
  Inv a st -> step act st = Some st' -> exit_ok a st'.
Proof.
  intros [Ha Hc Hw Hs Hn Hf] Hstep.
  unfold step in Hstep. destruct (status st) eqn:Hrun; try done.
  unfold exit_ok.
  destruct st as [hd n ec ecl sg eh w r cl lg hdl s]; simpl in *. subst s.
  destruct act as [| |c|sig|e| |[| |c]].
  - unfold Close, IsClosed in Hstep. simpl in Hstep.
    destruct (isClosed hd); by injection Hstep as <-.
  - by injection Hstep as <-.
  - repeat case_match; simplify_eq; done.
  - repeat case_match; simplify_eq; done.
  - repeat case_match; simplify_eq; done.
  - by injection Hstep as <-.
  - unfold step_watcher, Close in Hstep. simpl in Hstep.
    repeat case_match; simplify_eq; done.
  - unfold step_router in Hstep. simpl in Hstep.
    repeat case_match; simplify_eq; simpl; try done.
    + split; [done|]. eexists. split; [done|]. by rewrite last_snoc.
    + split; [done|]. by eexists.
  - unfold step_closer in Hstep. simpl in Hstep.
    destruct (cl !! c) as [[ch pc]|] eqn:Hcc; [|done]. simpl in Hstep.
    rewrite Forall_lookup in Hc. destruct (Hc _ _ Hcc) as (Hcap & Hcl & Hpc).
    simpl in *.
    destruct pc as [|[msg|]|err| | |]; try done.
    + by injection Hstep as <-.
    + destruct (isLoggingEnabled hd) eqn:El; injection Hstep as <-; simpl;
        [|done].
      split; [done|]. destruct Hpc as [_ (k & Hk & E)].
      exists msg, k. split_and!; try done. by rewrite last_snoc.
    + by injection Hstep as <-.
    + destruct Hpc as [Hb _]. unfold chan_send in Hstep.
      rewrite Hcl, Hb, Hcap in Hstep. simpl in Hstep. by injection Hstep as <-.
    + destruct (isLoggingEnabled hd); by injection Hstep as <-.
    + by injection Hstep as <-.
Qed.

Lemma reachable_exit_ok a h st :
  reachable (started a h) st -> exit_ok a st.
Proof.
  intros Hr. inversion Hr as [|st1 act st2 Hr1 Hstep]; subst.
  - done.
  - eapply step_exit_ok; [|done]. by eapply reachable_inv.
Qed.





(** X9: when the Adapter's [Close()] never fails, every result channel
    stays empty: nobody ever receives from one, the watcher waits forever
    once it has called [Close()], and neither the watcher nor a close
    goroutine ends the process. *)
Theorem clean_close_is_silent a h st :
  (forall k, adapterClose a k = None) ->
  reachable (started a h) st ->
  Forall (fun cc => buf (closeErrorChan cc) = []) (closes st) /\
  (forall c, step (ClientRecv c) st = None) /\
  (forall ch, watcher st = W_Recv ch -> step (Run Watcher) st = None) /\
  status st <> Exited Watcher /\
  (forall c, status st <> Exited (Closer c)).
Proof.
  intros Hclean Hr. pose proof (reachable_exit_ok _ _ _ Hr) as He.
  apply reachable_inv in Hr as [Ha Hc Hw Hs Hn Hf].
  assert (forall n v, ~ from_adapter a n v) as Hno.
  { intros n v (msg & k & _ & _ & E). by rewrite Hclean in E. }
  assert (forall c cc, closes st !! c = Some cc ->
            chan_recv (closeErrorChan cc) = None) as Hrecv.
  { intros c cc Hcc. rewrite Forall_lookup in Hc.
    destruct (Hc _ _ Hcc) as (Hcap & Hcl & Hpc). unfold chan_recv.
    assert (buf (closeErrorChan cc) = []) as Hb.
    { destruct (closer cc); simpl in Hpc;
        [exact Hpc | apply Hpc | apply Hpc | ..];
        (destruct Hpc as [?|(v & _ & Hv)]; [done | by apply Hno in Hv]). }
    by rewrite Hb, Hcl. }
  unfold exit_ok, status_ok in *. split_and!.
  - apply Forall_lookup. intros c cc Hcc. apply Hrecv in Hcc.
    unfold chan_recv in Hcc. by destruct (buf (closeErrorChan cc)).
  - intros c. unfold step. destruct (status st); try done.
    destruct (closes st !! c) as [cc|] eqn:Hcc; [|done].
    by rewrite (Hrecv _ _ Hcc).
  - intros ch Hw'. unfold step, step_watcher. rewrite Hw'.
    destruct (status st); try done. destruct ch as [c|]; [|done].
    destruct (closes st !! c) as [cc|] eqn:Hcc; [|done].
    by rewrite (Hrecv _ _ Hcc).
  - intros E. rewrite E in Hs. destruct Hs as (msg & Hv & _). by apply Hno in Hv.
  - intros c E. rewrite E in He. destruct He as (_ & msg & k & _ & Hk & _).
    by rewrite Hclean in Hk.
Qed.

(** X9 on a run: after SIGINT and a clean close the handle is closed and
    the watcher waits. *)
Lemma clean_close_is_silent_witness :
  let st := run interrupt (started clean_adapter None) in
  ((forall k, adapterClose clean_adapter k = None) /\
   reachable (started clean_adapter None) st) /\
  watcher st = W_Recv (Some 0%nat) /\
  isClosed (handle st) = true /\
  step (Run Watcher) st = None.
Proof.
  assert (reachable (started clean_adapter None)
            (run interrupt (started clean_adapter None))) as Hr.
  { apply reachable_run. constructor. }
  split; [split; [reflexivity | exact Hr]|].
  split; [reflexivity|]. split; [reflexivity|].
  exact (proj1 (proj2 (proj2 (clean_close_is_silent clean_adapter None _
                                (fun _ => eq_refl) Hr)))
           (Some 0%nat) eq_refl).
Defined.

Lemma receipts_snoc lg e :
  length (List.filter is_receipt (lg ++ [e])) =
  (length (List.filter is_receipt lg) + (if is_receipt e then 1 else 0))%nat.
Proof.
  rewrite List.filter_app, length_app. simpl. by destruct (is_receipt e).
Qed.

Lemma step_signals act st st' :
  step act st = Some st' ->
  ((length (sigChan st) <= 1)%nat /\
   Forall (fun s => notified s = true) (sigChan st) /\
   receipts st = match watcher st with W_WaitSignal | W_Log => 0%nat | _ => 1%nat end) ->
  (length (sigChan st') <= 1)%nat /\
  Forall (fun s => notified s = true) (sigChan st') /\
  receipts st' = match watcher st' with W_WaitSignal | W_Log => 0%nat | _ => 1%nat end.
Proof.
  unfold step, step_watcher, step_router, step_closer, Close, IsClosed, receipts.
  intros Hstep (Hlen & Hall & Hrec).
  destruct st as [hd n ec ecl sg eh w r cl lg hdl s]; simpl in *.
  repeat (case_match; simplify_eq; setters; rewrite ?receipts_snoc; simpl;
          try done);
    try (split_and!; [done..|lia]);
    try (match goal with
         | H : (_ <? _)%nat = true |- _ => apply Nat.ltb_lt in H
         end;
         split_and!;
         [rewrite length_app; simpl; lia
         |apply Forall_app; split; [done | by repeat constructor]
         |done]);
    try (apply Forall_cons in Hall as [_ Hall];
         split_and!; [simpl in *; lia | done | done]).
Qed.

(** X10: the signal channel holds at most one signal, and only one of
    SIGINT, SIGTERM, SIGQUIT.  The receipt of a signal is logged at most
    once: not before the watcher has passed its log statement, and exactly
    once from then on, however many signals arrive later. *)
Theorem one_signal_handled a h st :
  reachable (started a h) st ->
  (length (sigChan st) <= 1)%nat /\
  Forall (fun s => notified s = true) (sigChan st) /\
  receipts st =
    match watcher st with
    | W_WaitSignal | W_Log => 0%nat
    | _ => 1%nat
    end.
Proof.
  induction 1 as [|st act st' _ IH Hstep].
  - split_and!; [simpl; lia | constructor | done].
  - by eapply step_signals.
Qed.

(** X10 on a run: three signals, one receipt logged, one signal left in
    the channel. *)
Lemma one_signal_handled_witness :
  let st := run (interrupt ++ [Deliver SIGTERM; Deliver SIGQUIT; Run Watcher])
              (started clean_adapter None) in
  reachable (started clean_adapter None) st /\
  sigChan st = [SIGTERM] /\ receipts st = 1%nat.
Proof.
  assert (reachable (started clean_adapter None)
            (run (interrupt ++ [Deliver SIGTERM; Deliver SIGQUIT; Run Watcher])
               (started clean_adapter None))) as Hr.
  { apply reachable_run. constructor. }
  split; [exact Hr|]. split; [reflexivity|].
  exact (proj2 (proj2 (one_signal_handled clean_adapter None _ Hr))).
Defined.

Lemma step_dispatch_order act st st' :
  step act st = Some st' -> status st' = Running ->
  dispatch_order st' = dispatch_order st ++ delivered [act].
Proof.
  unfold step, step_watcher, step_router, step_closer, Close, IsClosed,
    dispatch_order, in_flight, delivered.
  intros Hstep Hrun.
  destruct st as [hd n ec ecl sg eh w r cl lg hdl s]; simpl in *.
  repeat (case_match; simplify_eq; setters; simpl; rewrite ?app_nil_r;
          try done).
  all: rewrite ?map_app; simpl; by rewrite <- ?app_assoc.
Qed.

Lemma delivered_cons act sched :
  delivered (act :: sched) = delivered [act] ++ delivered sched.
Proof. unfold delivered. simpl. by rewrite app_nil_r. Qed.

Lemma exec_dispatch_order sched st st' :
  exec sched st = Some st' -> status st' = Running ->
  dispatch_order st' = dispatch_order st ++ delivered sched.
Proof.
  revert st. induction sched as [|act sched IH]; intros st; cbn [exec].
  - intros [= <-] _. unfold delivered. simpl. by rewrite app_nil_r.
  - destruct (step act st) as [st1|] eqn:E; [|done]. intros Hex Hrun.
    rewrite (IH _ Hex Hrun), delivered_cons, app_assoc. f_equal.
    apply step_dispatch_order; [done|]. by eapply exec_running.
Qed.

Lemma step_handled_by act st st' :
  step act st = Some st' ->
  Forall (fun p => errHandler st = Some p.1) (handled st) ->
  Forall (fun p => errHandler st' = Some p.1) (handled st').
Proof.
  unfold step, step_watcher, step_router, step_closer, Close, IsClosed.
  intros Hstep Hall.
  destruct st as [hd n ec ecl sg eh w r cl lg hdl s]; simpl in *.
  repeat (case_match; simplify_eq; setters; simpl; try done).
  apply Forall_app. split; [done|]. by repeat constructor.
Qed.

(** X11: as long as the process runs, the delivery errors handled so far,
    the one the router holds and those still buffered are, in this order,
    exactly the errors the Adapter emitted: the handler is called on the
    errors in the order of their arrival, on none twice and on nothing else,
    and every call is a call of the handler given to [New]. *)
Theorem router_in_order a h sched st :
  exec sched (started a h) = Some st -> status st = Running ->
  map snd (handled st) ++ in_flight st ++ errorsChan st = delivered sched /\
  Forall (fun p => h = Some p.1) (handled st).
Proof.
  intros Hex Hrun. split.
  - pose proof (exec_dispatch_order _ _ _ Hex Hrun) as H.
    unfold dispatch_order in H. exact H.
  - pose proof (exec_reachable _ _ _ Hex) as Hr.
    assert (errHandler st = h) as <- by apply (reachable_handler _ _ Hr).
    clear Hex Hrun. induction Hr as [|st1 act st2 _ IH Hstep].
    + constructor.
    + by eapply step_handled_by.
Qed.

(** X11 on a run with two delivery errors. *)
Lemma router_in_order_witness :
  (exec two_errors (started clean_adapter (Some 3%nat)) =
     Some (run two_errors (started clean_adapter (Some 3%nat))) /\
   status (run two_errors (started clean_adapter (Some 3%nat))) = Running) /\
  handled (run two_errors (started clean_adapter (Some 3%nat))) =
    [(3%nat, sample_error); (3%nat, second_error)] /\
  Forall (fun p => Some 3%nat = Some p.1)
    (handled (run two_errors (started clean_adapter (Some 3%nat)))).
Proof.
  assert (exec two_errors (started clean_adapter (Some 3%nat)) =
            Some (run two_errors (started clean_adapter (Some 3%nat)))) as Hex.
  { vm_compute. reflexivity. }
  assert (status (run two_errors (started clean_adapter (Some 3%nat))) = Running)
    as Hrun.
  { vm_compute. reflexivity. }
  split; [split; [exact Hex | exact Hrun]|].
  split; [vm_compute; reflexivity|].
  exact (proj2 (router_in_order _ _ _ _ Hex Hrun)).
Defined.

Lemma step_close_budget act st st' :
  step act st = Some st' ->
  (length (closes st') + watcher_close_ahead st' <=
   length (closes st) + watcher_close_ahead st +
   (if is_CallClose act then 1 else 0))%nat /\
  (signal_seen st' = true ->
   signal_seen st = true \/ is_Deliver act = true).
Proof.
  unfold step, step_watcher, step_router, step_closer, Close, IsClosed,
    watcher_close_ahead, signal_seen.
  intros Hstep.
  destruct st as [hd n ec ecl sg eh w r cl lg hdl s]; simpl in *.
  repeat (case_match; simplify_eq; setters; simpl;
          rewrite ?length_app, ?length_insert; simpl; try done);
    try (split; [lia | by auto]).
Qed.

Lemma exec_close_budget sched st st' :
  exec sched st = Some st' ->
  (length (closes st') + watcher_close_ahead st' <=
   length (closes st) + watcher_close_ahead st +
   length (List.filter is_CallClose sched))%nat /\
  (signal_seen st' = true ->
   signal_seen st = true \/ existsb is_Deliver sched = true).
Proof.
  revert st. induction sched as [|act sched IH]; intros st; simpl.
  - intros [= <-]. split; [lia | auto].
  - destruct (step act st) as [st1|] eqn:E; [|done]. intros Hex.
    destruct (IH _ Hex) as [Hlen Hsig].
    destruct (step_close_budget _ _ _ E) as [Hlen1 Hsig1]. split.
    + destruct (is_CallClose act); simpl in *; lia.
    + intros Hs. destruct (Hsig Hs) as [H1|H1].
      * destruct (Hsig1 H1) as [?| ->]; auto.
      * right. rewrite H1. by destruct (is_Deliver act).
Qed.

(** X13: the Adapter's [Close()] is called at most once for every close
    sequence started, and at most one close sequence is started for every
    call of [Close()] by a client, plus one when a signal was delivered.
    While no close sequence was started the handle is open. *)
Theorem adapter_closes_bounded a h sched st :
  exec sched (started a h) = Some st ->
  (closeCalls st <= length (closes st))%nat /\
  (length (closes st) <=
   length (List.filter is_CallClose sched) +
   (if existsb is_Deliver sched then 1 else 0))%nat /\
  (closes st = [] -> isClosed (handle st) = false).
Proof.
  intros Hex. pose proof (exec_reachable _ _ _ Hex) as Hr.
  apply reachable_inv in Hr as [Ha Hc Hw Hs Hn Hf].
  destruct (exec_close_budget _ _ _ Hex) as [Hlen Hsig]. simpl in *.
  split_and!.
  - rewrite Hn. apply List.filter_length_le.
  - destruct (existsb is_Deliver sched); [lia|].
    destruct (signal_seen st) eqn:Es.
    + by destruct (Hsig eq_refl).
    + unfold signal_seen, watcher_close_ahead in *.
      destruct (watcher st); try done. lia.
  - intros Hnil. destruct (isClosed (handle st)); [|done].
    rewrite Hnil in Hf. destruct Hf as [Hf _].
    specialize (Hf eq_refl). by apply Exists_nil in Hf.
Qed.

(** X13 on a run with two client calls and a signal. *)
Lemma adapter_closes_bounded_witness :
  exec closes_and_signal (started failing_adapter None) =
    Some (run closes_and_signal (started failing_adapter None)) /\
  (closeCalls (run closes_and_signal (started failing_adapter None)) <=
   length (closes (run closes_and_signal (started failing_adapter None))))%nat /\
  length (closes (run closes_and_signal (started failing_adapter None))) = 3%nat.
Proof.
  assert (exec closes_and_signal (started failing_adapter None) =
            Some (run closes_and_signal (started failing_adapter None))) as Hex.
  { vm_compute. reflexivity. }
  split; [exact Hex|]. split; [|vm_compute; reflexivity].
  exact (proj1 (adapter_closes_bounded _ _ _ _ Hex)).
Defined.

Lemma run_app l1 l2 st : run (l1 ++ l2) st = run l2 (run l1 st).
Proof. revert st. induction l1 as [|a l1 IH]; intros st; simpl; [done|]. apply IH. Qed.

Lemma run_Close_closed n st :
  isClosed (handle st) = true -> run (replicate n CallClose) st = st.
Proof.
  intros Hcl. induction n as [|n IH]; simpl; [done|].
  unfold step, Close, IsClosed. rewrite Hcl. simpl.
  destruct (status st); simpl; apply IH.
Qed.

(** X12: one call of [Close()] on a fresh handle whose goroutine is left to
    finish, followed by any number of further calls: the Adapter's
    [Close()] has run once, there is one result channel, holding the
    Adapter's error if there was one, and the handle is closed. *)
Theorem Close_after_close a h n :
  let st := run (CallClose :: replicate 5 (Run (Closer 0)) ++ replicate n CallClose)
              (started a h) in
  status st = Running /\
  closeCalls st = 1%nat /\
  length (closes st) = 1%nat /\
  isClosed (handle st) = true /\
  buf <$> (closeErrorChan <$> closes st) =
    [match adapterClose a 0 with Some msg => [Some msg] | None => [] end].
Proof.
  intros st. subst st.
  change (CallClose :: replicate 5 (Run (Closer 0)) ++ replicate n CallClose)
    with ((CallClose :: replicate 5 (Run (Closer 0))) ++ replicate n CallClose).
  rewrite run_app.
  destruct a as [inp cl].
  assert (run (CallClose :: replicate 5 (Run (Closer 0)))
            (started (mkAdapter inp cl) h) =
          mkState (mkProducer (mkAdapter inp cl) true false) 1 [] false [] h
            W_WaitSignal R_Range
            [mkCloseCall
               (mkChan match cl 0%nat with Some msg => [Some msg] | None => [] end
                  1 false) C_Done]
            [] [] Running) as ->.
  { cbn [run replicate]. unfold step at 1. simpl.
    unfold step at 1, step_closer. simpl.
    destruct (cl 0%nat) as [msg|]; reflexivity. }
  rewrite run_Close_closed by done. simpl. done.
Qed.
